(** * Coverage instrumentation of the falco interpreter

    A shallow embedding of the coverage instrumentation pass
    ([interpreter/instrument.go]) and of the [testing.fixed_time] built-in
    ([tester/function/testing_fixed_time.go]), with the properties the
    specification states about them.

    The Go code rewrites the syntax tree in place and records every marker
    it creates in the coverage registry of the interpreter context.  The
    embedding is functional:

    - a function that mutates a node returns the node as it is after the
      call;
    - the registry is written, never read, during the pass, so every
      function returns, next to its result, the sequence of registration
      calls ([SetupSubroutine], [SetupStatement], [SetupBranch]) it makes,
      in the order the Go code makes them; [shared.register] replays such a
      sequence on a registry;
    - a registration call receives a pointer to a node; the embedding names
      that node by the value the registering function was entered with.

    Go's [int] (lines, columns, branch counters) is embedded as [Z]: the
    pass only increments a counter once per clause or case, so no value
    leaves the range of [int]. *)

From Stdlib Require Import ZArith.
From stdpp Require Import base list strings pretty gmap.

Set Warnings "-register-all,-clear-no-such-hyp".

Local Open Scope string_scope.
Local Open Scope Z_scope.
Local Open Scope list_scope.

(** ** Package [token] *)

Module token.

(** Only [STRING] is named by the sources; every other token type is
    kept by its name. *)
Inductive TokenType : Type :=
| STRING
| OtherType (name : string).

Record Token : Type := mkToken {
  Type_ : TokenType;
  Literal : string;
  Line : Z;
  Position : Z;
  File : string;
}.

(** [token.Token{Type: t, Literal: l}]: the remaining fields take Go's
    zero values. *)
Definition literalToken (t : TokenType) (l : string) : Token :=
  {| Type_ := t; Literal := l; Line := 0; Position := 0; File := "" |}.

End token.

(** ** Package [ast]

    The declarations of the syntax tree are not among the sources; the
    types below carry the fields the instrumentation pass reads or writes
    and the source token of every node. *)

Module ast.

Record Meta : Type := mkMeta { Token : token.Token }.

Record Ident : Type := mkIdent { Ident_Meta : Meta; Ident_Value : string }.

Inductive Expression : Type :=
| IdentExpression (i : Ident)
| String (m : Meta) (Value : string)
| Terminal (m : Meta)
| FunctionCallExpression (m : Meta) (Function : Ident)
    (Arguments : list Expression)
| GroupedExpression (m : Meta) (Right : Expression)
| InfixExpression (m : Meta) (Left : Expression) (Operator : string)
    (Right : Expression)
| PostfixExpression (m : Meta) (Left : Expression) (Operator : string)
| PrefixExpression (m : Meta) (Operator : string) (Right : Expression)
| IfExpression (m : Meta) (Condition Consequence Alternative : Expression).

(** The statements that get a statement marker and nothing else (the
    [default] case of [instrumentStatement]): the kinds its comment
    lists, and any other kind, kept by its name. *)
Inductive PlainKind : Type :=
| EsiStatement | RestartStatement | DeclareStatement | UnsetStatement
| RemoveStatement | BreakStatement | FallthroughStatement | GotoStatement
| IncludeStatement
| OtherStatement (name : string).

Inductive Statement : Type :=
| BlockStmt (b : BlockStatement)
| IfStmt (i : IfStatement)
| SwitchStatement (m : Meta) (Control : Expression)
    (Cases : list CaseStatement)
| FunctionCallStatement (m : Meta) (Function : Ident)
    (Arguments : list Expression)
| ErrorStatement (m : Meta) (Code Argument : option Expression)
| ReturnStatement (m : Meta) (ReturnExpression : option Expression)
| SetStatement (m : Meta) (Value : Expression)
| AddStatement (m : Meta) (Value : Expression)
| LogStatement (m : Meta) (Value : Expression)
| SyntheticStatement (m : Meta) (Value : Expression)
| SyntheticBase64Statement (m : Meta) (Value : Expression)
| PlainStatement (k : PlainKind) (m : Meta)
with BlockStatement : Type :=
| mkBlock (m : Meta) (Statements : list Statement)
with IfStatement : Type :=
| mkIf (Keyword : string) (m : Meta) (Condition : Expression)
    (Consequence : BlockStatement) (Another : list IfStatement)
    (Alternative : option ElseStatement)
with ElseStatement : Type :=
| mkElse (m : Meta) (Consequence : BlockStatement)
with CaseStatement : Type :=
| mkCase (m : Meta) (Test : option Expression)
    (Statements : list Statement).

Record SubroutineDeclaration : Type := mkSub {
  Sub_Meta : Meta;
  Sub_Name : Ident;
  Sub_Block : BlockStatement;
}.

(** Root declarations: subroutines, and everything else (backend,
    table, acl, ...), which the pass ignores. *)
Inductive Declaration : Type :=
| Subroutine (sub : SubroutineDeclaration)
| OtherDeclaration (m : Meta).

Record VCL : Type := mkVCL { VCL_Statements : list Declaration }.

(** The values of the [ast.Node] interface that reach [createMarker]. *)
Inductive Node : Type :=
| StatementNode (s : Statement)
| ExpressionNode (e : Expression)
| CaseNode (c : CaseStatement)
| SubroutineNode (sub : SubroutineDeclaration).

Definition Expression_GetMeta (e : Expression) : Meta :=
  match e with
  | IdentExpression i => Ident_Meta i
  | String m _ | Terminal m | FunctionCallExpression m _ _
  | GroupedExpression m _ | InfixExpression m _ _ _
  | PostfixExpression m _ _ | PrefixExpression m _ _
  | IfExpression m _ _ _ => m
  end.

Definition Block_GetMeta (b : BlockStatement) : Meta :=
  match b with mkBlock m _ => m end.

Definition If_GetMeta (i : IfStatement) : Meta :=
  match i with mkIf _ m _ _ _ _ => m end.

Definition Case_GetMeta (c : CaseStatement) : Meta :=
  match c with mkCase m _ _ => m end.

Definition Statement_GetMeta (s : Statement) : Meta :=
  match s with
  | BlockStmt b => Block_GetMeta b
  | IfStmt i => If_GetMeta i
  | SwitchStatement m _ _ | FunctionCallStatement m _ _
  | ErrorStatement m _ _ | ReturnStatement m _ | SetStatement m _
  | AddStatement m _ | LogStatement m _ | SyntheticStatement m _
  | SyntheticBase64Statement m _ | PlainStatement _ m => m
  end.

Definition GetMeta (n : Node) : Meta :=
  match n with
  | StatementNode s => Statement_GetMeta s
  | ExpressionNode e => Expression_GetMeta e
  | CaseNode c => Case_GetMeta c
  | SubroutineNode sub => Sub_Meta sub
  end.

(** Field accessors and in-place field updates of the clause nodes. *)
Definition Block_Statements (b : BlockStatement) : list Statement :=
  match b with mkBlock _ l => l end.

Definition Block_setStatements (b : BlockStatement) (l : list Statement)
  : BlockStatement :=
  match b with mkBlock m _ => mkBlock m l end.

Definition If_Keyword (i : IfStatement) : string :=
  match i with mkIf kw _ _ _ _ _ => kw end.

Definition If_Condition (i : IfStatement) : Expression :=
  match i with mkIf _ _ c _ _ _ => c end.

Definition If_Consequence (i : IfStatement) : BlockStatement :=
  match i with mkIf _ _ _ b _ _ => b end.

Definition If_Another (i : IfStatement) : list IfStatement :=
  match i with mkIf _ _ _ _ l _ => l end.

Definition If_Alternative (i : IfStatement) : option ElseStatement :=
  match i with mkIf _ _ _ _ _ a => a end.

Definition If_setKeyword (i : IfStatement) (kw : string) : IfStatement :=
  match i with mkIf _ m c b l a => mkIf kw m c b l a end.

Definition If_setAlternative (i : IfStatement) (a : option ElseStatement)
  : IfStatement :=
  match i with mkIf kw m c b l _ => mkIf kw m c b l a end.

Definition Else_Consequence (e : ElseStatement) : BlockStatement :=
  match e with mkElse _ b => b end.

Definition Case_Statements (c : CaseStatement) : list Statement :=
  match c with mkCase _ _ l => l end.

Definition Case_Test (c : CaseStatement) : option Expression :=
  match c with mkCase _ t _ => t end.

End ast.

(** [token.Null] is not among the sources: it is a parameter of the
    development. *)
Class NullToken : Type := token_Null : token.Token.

(** ** Package [tester/shared] *)

Module shared.

Inductive CoverageType : Type :=
| CoverageTypeSubroutine
| CoverageTypeStatement
| CoverageTypeBranch.

#[global] Instance CoverageType_eq_dec : EqDecision CoverageType.
Proof. solve_decision. Defined.

(** The [String] method of [CoverageType] is not among the sources: it is
    a parameter of the development. *)
Class CoverageTypeStringer : Type :=
  CoverageType_String : CoverageType -> string.

(** The three registration operations of the registry, as calls. *)
Inductive Setup : Type :=
| SetupSubroutine (id : string) (node : ast.Node)
| SetupStatement (id : string) (node : ast.Node)
| SetupBranch (id : string) (node : ast.Node).

Definition Setup_id (s : Setup) : string :=
  match s with
  | SetupSubroutine id _ | SetupStatement id _ | SetupBranch id _ => id
  end.

Definition Setup_node (s : Setup) : ast.Node :=
  match s with
  | SetupSubroutine _ n | SetupStatement _ n | SetupBranch _ n => n
  end.

Definition Setup_kind (s : Setup) : CoverageType :=
  match s with
  | SetupSubroutine _ _ => CoverageTypeSubroutine
  | SetupStatement _ _ => CoverageTypeStatement
  | SetupBranch _ _ => CoverageTypeBranch
  end.

(** Modelled from the spec: the Coverage Registry ([shared.Coverage] and
    its [SetupSubroutine], [SetupStatement] and [SetupBranch] methods) is
    not among the sources.  The spec describes a table mapping a marker
    identifier to the originating node and a covered flag, with one bucket
    per coverage kind; an entry is created at instrumentation time with
    covered = false. *)
Record Entry : Type := mkEntry { Entry_node : ast.Node; Entry_covered : bool }.

(** Modelled from the spec: the registry itself, one table per coverage
    kind (subroutine, statement, branch). *)
Record Coverage : Type := mkCoverage {
  Subroutines : gmap string Entry;
  Statements : gmap string Entry;
  Branches : gmap string Entry;
}.

(** Modelled from the spec: the bucket matching a coverage kind. *)
Definition bucket (t : CoverageType) (c : Coverage) : gmap string Entry :=
  match t with
  | CoverageTypeSubroutine => Subroutines c
  | CoverageTypeStatement => Statements c
  | CoverageTypeBranch => Branches c
  end.

(** Modelled from the spec: the three registration operations
    ([SetupSubroutine], [SetupStatement], [SetupBranch] of
    [shared.Coverage]), which are not among the sources: each registers
    (identifier -> node) in the bucket of its kind, not yet covered. *)
Definition call (s : Setup) (c : Coverage) : Coverage :=
  match s with
  | SetupSubroutine id node =>
      mkCoverage (<[id := mkEntry node false]> (Subroutines c))
        (Statements c) (Branches c)
  | SetupStatement id node =>
      mkCoverage (Subroutines c)
        (<[id := mkEntry node false]> (Statements c)) (Branches c)
  | SetupBranch id node =>
      mkCoverage (Subroutines c) (Statements c)
        (<[id := mkEntry node false]> (Branches c))
  end.

(** Modelled from the spec: the registry after a sequence of registration
    calls, first call first; the registry accumulates and nothing is
    deleted. *)
Definition register (calls : list Setup) (c : Coverage) : Coverage :=
  foldl (fun acc s => call s acc) c calls.

End shared.

(** ** Package [interpreter]: the instrumentation pass *)

Module interpreter.

Import token ast shared.

(** A computation that makes registration calls: its result and the calls
    made, in order. *)
Definition W (A : Type) : Type := (A * list Setup)%type.

Definition ret {A : Type} (a : A) : W A := (a, []).

Definition bind {A B : Type} (m : W A) (k : A -> W B) : W B :=
  let '(a, l1) := m in let '(b, l2) := k a in (b, l1 ++ l2).

Notation "x <- m ;; k" := (bind m (fun x => k))
  (at level 100, m at next level, right associativity).

(** [for _, x := range xs { statements = append(statements, f(x)...) }] *)
Definition appendEach {A B : Type} (f : A -> W (list B))
  : list A -> W (list B) :=
  fix go (xs : list A) : W (list B) :=
    match xs with
    | [] => ret []
    | x :: xs' => s1 <- f x ;; s2 <- go xs' ;; ret (s1 ++ s2)
    end.

Section instrument.
Context {stringer : CoverageTypeStringer} {null : NullToken}.

(** [var fake = &ast.Meta{Token: token.Null}] *)
Definition fake : Meta := mkMeta token_Null.

(** The call statement [createMarker] returns. *)
Definition markerCall (name id : string) : Statement :=
  FunctionCallStatement fake
    (mkIdent (mkMeta (literalToken STRING name)) name)
    [String (mkMeta (literalToken STRING id)) id].

(** [fmt.Sprintf("<prefix>_%d_%d", tok.Line, tok.Position)] *)
Definition Sprintf_position (prefix : string) (tok : token.Token) : string :=
  prefix +:+ "_" +:+ pretty (Line tok) +:+ "_" +:+ pretty (Position tok).

Definition createMarker (t : CoverageType) (node : Node)
    (suffix : list string) : W Statement :=
  let name := "coverage." +:+ CoverageType_String t in
  let tok := Token (GetMeta node) in
  let s :=
    match suffix with
    | [] => ""
    | _ :: _ => "_" +:+ String.concat "_" suffix
    end in
  let '(id, calls) :=
    match t with
    | CoverageTypeSubroutine =>
        let id := Sprintf_position "sub" tok +:+ s in
        (id, [SetupSubroutine id node])
    | CoverageTypeStatement =>
        let id := Sprintf_position "stmt" tok +:+ s in
        (id, [SetupStatement id node])
    | CoverageTypeBranch =>
        let id := Sprintf_position "branch" tok +:+ s in
        (id, [SetupBranch id node])
    end in
  (markerCall name id, calls).

(** [instrumentIfExpression]; [expr] is the inline conditional
    [IfExpression m cond cons alt]. *)
Definition instrumentIfExpression (expr : Expression) (cond : Expression)
  : W (list Statement) :=
  mt <- createMarker CoverageTypeBranch (ExpressionNode expr) ["true"] ;;
  mf <- createMarker CoverageTypeBranch (ExpressionNode expr) ["false"] ;;
  let branch :=
    mkIf "if" fake cond (mkBlock fake [mt]) []
      (Some (mkElse fake (mkBlock fake [mf]))) in
  ret [IfStmt branch].

Fixpoint instrumentExpression (expr : Expression) : W (list Statement) :=
  match expr with
  | FunctionCallExpression _ _ args => appendEach instrumentExpression args
  | GroupedExpression _ r => instrumentExpression r
  | InfixExpression _ l _ r =>
      s1 <- instrumentExpression l ;;
      s2 <- instrumentExpression r ;;
      ret (s1 ++ s2)
  | PostfixExpression _ l _ => instrumentExpression l
  | PrefixExpression _ _ r => instrumentExpression r
  | IfExpression _ cond _ _ => instrumentIfExpression expr cond
  | IdentExpression _ | String _ _ | Terminal _ => ret []
  end.

(** [instrumentFunctionCallStatement], on the call's argument list. *)
Definition instrumentFunctionCallStatement (args : list Expression)
  : W (list Statement) :=
  appendEach instrumentExpression args.

(** [if e != nil { statements = append(statements,
    i.instrumentExpression(e)...) }] *)
Definition instrumentOptional (e : option Expression) : W (list Statement) :=
  match e with
  | Some e => instrumentExpression e
  | None => ret []
  end.

(** [instrumentErrorStatement]; [stmt] is [ErrorStatement m code arg]. *)
Definition instrumentErrorStatement (stmt : Statement)
    (code arg : option Expression) : W (list Statement) :=
  mk <- createMarker CoverageTypeStatement (StatementNode stmt) [] ;;
  s1 <- instrumentOptional code ;;
  s2 <- instrumentOptional arg ;;
  ret (mk :: s1 ++ s2).

(** [instrumentReturnStatement]; [stmt] is [ReturnStatement m e]. *)
Definition instrumentReturnStatement (stmt : Statement)
    (e : option Expression) : W (list Statement) :=
  mk <- createMarker CoverageTypeStatement (StatementNode stmt) [] ;;
  s1 <- instrumentOptional e ;;
  ret (mk :: s1).

(** The cases of [instrumentStatement] for a statement with a single
    value expression. *)
Definition instrumentValue (stmt : Statement) (value : Expression)
  : W (list Statement) :=
  mk <- createMarker CoverageTypeStatement (StatementNode stmt) [] ;;
  s1 <- instrumentExpression value ;;
  ret (mk :: s1).

(** The body of the loop of [instrumentStatements], given
    [instrumentStatement]: the statements to put before [stmt], then
    [stmt] as the call leaves it. *)
Definition withStatement (f : Statement -> W (list Statement * Statement))
    (stmt : Statement) : W (list Statement) :=
  r <- f stmt ;; ret (r.1 ++ [r.2]).

(** The loop of [instrumentSwitchStatement] over [stmt.Cases], given its
    body; [branch] is the loop's counter. *)
Definition eachCase (body : Z -> CaseStatement -> W CaseStatement)
  : Z -> list CaseStatement -> W (list CaseStatement) :=
  fix go (branch : Z) (cases : list CaseStatement) : W (list CaseStatement) :=
    match cases with
    | [] => ret []
    | c :: cases' =>
        c' <- body branch c ;;
        rest <- go (branch + 1) cases' ;;
        ret (c' :: rest)
    end.

(** [nest.Alternative = e] when the loop or the trailing else assigns it,
    [nest] as it is otherwise. *)
Definition attach (nest : IfStatement) (e : option ElseStatement)
  : IfStatement :=
  match e with
  | Some _ => If_setAlternative nest e
  | None => nest
  end.

(** The loop of [instrumentIfStatement] over [stmt.Another], followed by
    the attachment of the trailing else.  The Go loop walks a [nest]
    pointer down the chain and assigns [nest.Alternative]; here a call
    returns the alternative assigned to the [nest] it starts from ([None]
    when nothing is assigned), and the clause [a] that becomes the next
    [nest] receives, through [attach], the alternative the rest of the
    loop assigns to it.  [instrumentIf] is [a.Keyword = "if";
    i.instrumentIfStatement(a)], [marker] creates the branch marker of the
    root statement for a branch number, and [trailing] is the code after
    the loop. *)
Definition eachAnother (instrumentIf : IfStatement -> W IfStatement)
    (marker : Z -> W Statement)
    (trailing : Z -> W (option ElseStatement))
  : Z -> list IfStatement -> W (option ElseStatement) :=
  fix go (branch : Z) (another : list IfStatement)
    : W (option ElseStatement) :=
    match another with
    | [] => trailing branch
    | a :: another' =>
        let branch := branch + 1 in
        a' <- instrumentIf a ;;
        mk <- marker branch ;;
        next <- go branch another' ;;
        ret (Some (mkElse fake (mkBlock fake [mk; IfStmt (attach a' next)])))
    end.

(** [instrumentStatement] returns the statements to put before [stmt] and
    [stmt] as the call leaves it.  [instrumentIfStatementKw kw stmt] is
    [instrumentIfStatement] on [stmt] with its keyword set to [kw] when
    [kw] is given. *)
Fixpoint instrumentStatement (stmt : Statement)
  : W (list Statement * Statement) :=
  match stmt with
  | BlockStmt (mkBlock m l) =>
      l' <- appendEach (withStatement instrumentStatement) l ;;
      ret ([], BlockStmt (mkBlock m l'))
  | IfStmt t =>
      mk <- createMarker CoverageTypeStatement (StatementNode stmt) [] ;;
      t' <- instrumentIfStatementKw None t ;;
      ret ([mk], IfStmt t')
  | SwitchStatement m control cases =>
      mk <- createMarker CoverageTypeStatement (StatementNode stmt) [] ;;
      cases' <-
        eachCase
          (fun branch c =>
             match c with
             | mkCase mc test l =>
                 m1 <- createMarker CoverageTypeBranch (StatementNode stmt)
                         [pretty branch] ;;
                 m2 <- createMarker CoverageTypeBranch (CaseNode c) [] ;;
                 l' <- appendEach (withStatement instrumentStatement) l ;;
                 ret (mkCase mc test (m1 :: m2 :: l'))
             end)
          1 cases ;;
      ret ([mk], SwitchStatement m control cases')
  | FunctionCallStatement _ _ args =>
      pre <- instrumentFunctionCallStatement args ;; ret (pre, stmt)
  | ErrorStatement _ code arg =>
      pre <- instrumentErrorStatement stmt code arg ;; ret (pre, stmt)
  | ReturnStatement _ e =>
      pre <- instrumentReturnStatement stmt e ;; ret (pre, stmt)
  | SetStatement _ value | AddStatement _ value | LogStatement _ value
  | SyntheticStatement _ value | SyntheticBase64Statement _ value =>
      pre <- instrumentValue stmt value ;; ret (pre, stmt)
  | PlainStatement _ _ =>
      mk <- createMarker CoverageTypeStatement (StatementNode stmt) [] ;;
      ret ([mk], stmt)
  end
with instrumentIfStatementKw (kw : option string) (stmt : IfStatement)
  : W IfStatement :=
  match stmt with
  | mkIf keyword m cond (mkBlock mb l) another alternative =>
      let keyword := default keyword kw in
      let node :=
        StatementNode
          (IfStmt (mkIf keyword m cond (mkBlock mb l) another alternative)) in
      m1 <- createMarker CoverageTypeBranch node [pretty 1] ;;
      l' <- appendEach (withStatement instrumentStatement) l ;;
      alt <-
        eachAnother
          (instrumentIfStatementKw (Some "if"))
          (fun branch => createMarker CoverageTypeBranch node [pretty branch])
          (fun branch =>
             match alternative with
             | Some (mkElse me (mkBlock meb le)) =>
                 let branch := branch + 1 in
                 mk <- createMarker CoverageTypeBranch node
                         [pretty branch] ;;
                 le' <- appendEach (withStatement instrumentStatement) le ;;
                 ret (Some (mkElse me (mkBlock meb (mk :: le'))))
             | None => ret None
             end)
          1 another ;;
      ret (mkIf keyword m cond (mkBlock mb (m1 :: l')) [] alt)
  end.

Definition instrumentStatements (stmts : list Statement)
  : W (list Statement) :=
  appendEach (withStatement instrumentStatement) stmts.

Definition instrumentIfStatement (stmt : IfStatement) : W IfStatement :=
  instrumentIfStatementKw None stmt.

(** The code of [instrumentIfStatement] after its loop: the trailing else
    of the statement [node], instrumented and numbered after [branch], is
    the alternative assigned to the last [nest]. *)
Definition instrumentAlternative (node : Node)
    (alternative : option ElseStatement) (branch : Z)
  : W (option ElseStatement) :=
  match alternative with
  | Some (mkElse me (mkBlock meb le)) =>
      let branch := branch + 1 in
      mk <- createMarker CoverageTypeBranch node [pretty branch] ;;
      le' <- instrumentStatements le ;;
      ret (Some (mkElse me (mkBlock meb (mk :: le'))))
  | None => ret None
  end.

(** [instrumentSwitchStatement]; [stmt] is the switch statement and
    [cases] its [Cases]; the result is the list of its cases after the
    call. *)
Definition instrumentCase (stmt : Statement) (branch : Z)
    (c : CaseStatement) : W CaseStatement :=
  match c with
  | mkCase mc test l =>
      m1 <- createMarker CoverageTypeBranch (StatementNode stmt)
              [pretty branch] ;;
      m2 <- createMarker CoverageTypeBranch (CaseNode c) [] ;;
      l' <- instrumentStatements l ;;
      ret (mkCase mc test (m1 :: m2 :: l'))
  end.

Definition instrumentSwitchStatement (stmt : Statement)
    (cases : list CaseStatement) : W (list CaseStatement) :=
  eachCase (instrumentCase stmt) 1 cases.

(** [instrumentSubroutine]: the subroutine after the call. *)
Definition instrumentSubroutine (sub : SubroutineDeclaration)
  : W SubroutineDeclaration :=
  mk <- createMarker CoverageTypeSubroutine (SubroutineNode sub) [] ;;
  l <- instrumentStatements (Block_Statements (Sub_Block sub)) ;;
  ret (mkSub (Sub_Meta sub) (Sub_Name sub)
         (Block_setStatements (Sub_Block sub) (mk :: l))).

(** [instrument]: the program after the call. *)
Definition instrumentDeclaration (v : Declaration) : W Declaration :=
  match v with
  | Subroutine sub => sub' <- instrumentSubroutine sub ;; ret (Subroutine sub')
  | OtherDeclaration _ => ret v
  end.

Fixpoint instrumentDeclarations (vs : list Declaration)
  : W (list Declaration) :=
  match vs with
  | [] => ret []
  | v :: vs' =>
      v' <- instrumentDeclaration v ;;
      rest <- instrumentDeclarations vs' ;;
      ret (v' :: rest)
  end.

Definition instrument (vcl : VCL) : W VCL :=
  vs <- instrumentDeclarations (VCL_Statements vcl) ;; ret (mkVCL vs).

End instrument.

End interpreter.

(** ** Package [tester/function]: the built-in [testing.fixed_time] *)

(** Go's [time] package: [time.Time], [time.Unix] and [time.Parse], whose
    error is kept by its text. *)
Class GoTime : Type := {
  Time : Type;
  time_Unix : Z -> Z -> Time;
  time_Parse : string -> string -> Time + string;
}.

Module value.

(** The types of values; only [INTEGER], [TIME] and [STRING] are named by
    the sources. *)
Inductive Type_ : Type :=
| IntegerType
| TimeType
| StringType
| OtherType (name : string).

Inductive Value `{GoTime} : Type :=
| Integer (Value : Z)
| Time_ (Value : Time)
| String (Value : string)
| Other (name : string).

Definition Type_of `{GoTime} (v : Value) : Type_ :=
  match v with
  | Integer _ => IntegerType
  | Time_ _ => TimeType
  | String _ => StringType
  | Other name => OtherType name
  end.

End value.

(** [value.Null] and the text of the error [errors.ArgumentNotEnough]
    builds are not among the sources: they are parameters of the
    development. *)
Class ValueImports `{GoTime} : Type := {
  value_Null : value.Value;
  ArgumentNotEnough_Error : string -> Z -> list value.Value -> string;
}.

Module context.

(** The field of [context.Context] the built-in writes. *)
Record Context `{GoTime} : Type := mkContext { FixedTime : option Time }.

Arguments mkContext {_} _.

End context.

Module errors.

Inductive Arg : Type :=
| StringArg (s : string)
| TypeArg (t : value.Type_).

(** [errors.NewTestingError(format, args...)]: the error type of the
    testing built-ins, with its message kept as format and arguments. *)
Record TestingError : Type := NewTestingError {
  Format : string;
  Args : list Arg;
}.

End errors.

Module function.

Import value context errors.

Section fixed_time.
Context `{ValueImports}.

Definition Testing_fixed_time_Name : string := "testing.fixed_time".

(** [Some text] is the error, [None] is [nil]. *)
Definition Testing_fixed_time_Validate (args : list Value) : option string :=
  if decide (length args ≠ 1%nat)
  then Some (ArgumentNotEnough_Error Testing_fixed_time_Name 1 args)
  else None.

Definition expectedTimeFormat : string := "2006-01-02 15:04:05".

(** The context after the call, the returned value ([None] is [nil]) and
    the returned error ([None] is [nil]).  After a successful validation
    [args] has one element, so the case of an empty [args], where Go's
    [args[0]] would panic, is not reached. *)
Definition Testing_fixed_time (ctx : Context) (args : list Value)
  : Context * (option Value * option TestingError) :=
  match Testing_fixed_time_Validate args with
  | Some err => (ctx, (None, Some (NewTestingError "%s" [StringArg err])))
  | None =>
      match args with
      | [] => (ctx, (None, None))
      | arg0 :: _ =>
          match arg0 with
          | Integer v =>
              let t := time_Unix v 0 in
              (mkContext (Some t), (Some value_Null, None))
          | Time_ t => (mkContext (Some t), (Some value_Null, None))
          | String fixed =>
              match time_Parse expectedTimeFormat fixed with
              | inr err =>
                  (ctx,
                   (Some value_Null,
                    Some (NewTestingError "Invalid time format: %s"
                            [StringArg err])))
              | inl ft => (mkContext (Some ft), (Some value_Null, None))
              end
          | Other _ =>
              (ctx,
               (Some value_Null,
                Some
                  (NewTestingError
                     "First argument of %s must be INTEGER or TIME or STRING type, %s provided"
                     [StringArg Testing_fixed_time_Name;
                      TypeArg (Type_of arg0)])))
          end
      end
  end.

(** The argument lists the specification says are refused: not exactly
    one value, a value whose type is not [INTEGER], [TIME] or [STRING], or
    a [STRING] that does not parse with the layout. *)
Definition rejected (args : list Value) : Prop :=
  length args ≠ 1%nat \/
  exists v, args = [v] /\
    (Type_of v ∉ [IntegerType; TimeType; StringType] \/
     exists fixed err,
       v = String fixed /\ time_Parse "2006-01-02 15:04:05" fixed = inr err).

(** The clock a value stands for, when it stands for one. *)
Definition fixedClock (v : Value) : option Time :=
  match v with
  | Integer n => Some (time_Unix n 0)
  | Time_ t => Some t
  | String fixed =>
      match time_Parse "2006-01-02 15:04:05" fixed with
      | inl t => Some t
      | inr _ => None
      end
  | Other _ => None
  end.

(** The clock an argument list installs, when the call accepts it. *)
Definition acceptedClock (args : list Value) : option Time :=
  match args with
  | [v] => fixedClock v
  | _ => None
  end.

(** The context after a sequence of calls, first call first. *)
Definition afterCalls (ctx : Context) (calls : list (list Value)) : Context :=
  foldl (fun c args => (Testing_fixed_time c args).1) ctx calls.

End fixed_time.

End function.

(** ** Package [interpreter/exception] *)

(** Go's [fmt.Sprintf] on a format and arguments of any type. *)
Class GoFmt : Type := {
  Any : Type;
  fmt_Sprintf : string -> list Any -> string;
}.

Module exception.

(** [type Type string] *)
Definition Type_ : Type := string.

Definition RuntimeType : Type_ := "RuntimeException".

Definition SystemType : Type_ := "SystemException".

Record Exception : Type := mkException {
  Type_of : Type_;
  Token : option token.Token;
  Message : string;
}.

(** The line feed of Go's ["\n"]. *)
Definition newline : string := String.String (Ascii.ascii_of_nat 10) "".

(** The [Error] method of [Exception]; [fmt.Sprintf] with [%s] on strings and [%d] on
    integers is written out. *)
Definition Error (e : Exception) : string :=
  let out :=
    match Token e with
    | None => "[" +:+ Type_of e +:+ "] " +:+ Message e
    | Some t =>
        let file :=
          if decide (token.File t ≠ "") then " in " +:+ token.File t else "" in
        "[" +:+ Type_of e +:+ "] " +:+ Message e +:+ file +:+
        " at line: " +:+ pretty (token.Line t) +:+
        ", position: " +:+ pretty (token.Position t)
    end in
  if decide (Type_of e = SystemType)
  then
    (out +:+
     (newline +:+ newline +:+
      "This exception is caused by falco interpreter.")) +:+
    (newline +:+
     "It maybe a bug, please report to http://github.com/ysugimoto/falco")
  else out.

Section constructors.
Context `{GoFmt}.

Definition Runtime (t : option token.Token) (format : string)
    (args : list Any) : Exception :=
  mkException RuntimeType t (fmt_Sprintf format args).

Definition System (format : string) (args : list Any) : Exception :=
  mkException SystemType None (fmt_Sprintf format args).

End constructors.

(** The line of [MaxCallStackExceeded] for one subroutine of the call
    stack: [fmt.Sprintf("%s in %s:%d", ...)]. *)
Definition frame (sub : ast.SubroutineDeclaration) : string :=
  ast.Ident_Value (ast.Sub_Name sub) +:+ " in " +:+
  token.File (ast.Token (ast.Sub_Meta sub)) +:+ ":" +:+
  pretty (token.Line (ast.Token (ast.Sub_Meta sub))).

Definition MaxCallStackExceeded (t : option token.Token)
    (stacks : list ast.SubroutineDeclaration) : Exception :=
  mkException RuntimeType t
    ("max call stack exceeded. Call stack:" +:+ newline +:+
     String.concat newline (map frame stacks)).

(** The report note [Error] appends to a system exception. *)
Definition reportNote : string :=
  newline +:+ newline +:+ "This exception is caused by falco interpreter."
  +:+ newline +:+
  "It maybe a bug, please report to http://github.com/ysugimoto/falco".

(** The location [Error] prints for a token. *)
Definition location (t : token.Token) : string :=
  (if decide (token.File t ≠ "") then " in " +:+ token.File t else "") +:+
  " at line: " +:+ pretty (token.Line t) +:+
  ", position: " +:+ pretty (token.Position t).

End exception.

(** * Properties of the instrumentation pass *)

Module instrument_spec.

Import token ast shared interpreter.

(** ** Marker identifiers, as the specification words them *)

(** The fixed tag of a coverage kind. *)
Definition kindPrefix (t : CoverageType) : string :=
  match t with
  | CoverageTypeSubroutine => "sub"
  | CoverageTypeStatement => "stmt"
  | CoverageTypeBranch => "branch"
  end.

(** [<kind-prefix>_<line>_<column>], followed by [_] and the suffix parts
    joined by [_] when a suffix is given. *)
Definition identifier (t : CoverageType) (line column : Z)
    (suffix : list string) : string :=
  kindPrefix t +:+ "_" +:+ pretty line +:+ "_" +:+ pretty column +:+
  (if decide (suffix = []) then "" else "_" +:+ String.concat "_" suffix).

(** The identifier of the marker of kind [t] on [node]. *)
Definition markerId (t : CoverageType) (node : Node) (suffix : list string)
  : string :=
  identifier t (Line (Token (GetMeta node))) (Position (Token (GetMeta node)))
    suffix.

(** The registration operation of a coverage kind. *)
Definition setupCall (t : CoverageType) (id : string) (node : Node) : Setup :=
  match t with
  | CoverageTypeSubroutine => SetupSubroutine id node
  | CoverageTypeStatement => SetupStatement id node
  | CoverageTypeBranch => SetupBranch id node
  end.

(** The identifiers a sequence of registration calls registers under a
    coverage kind. *)
Definition identifiers (t : CoverageType) (calls : list Setup)
  : gset string :=
  list_to_set
    (map Setup_id
       (filter (fun s => Setup_kind s = t) calls)).

Section definitions.
Context {stringer : CoverageTypeStringer} {null : NullToken}.

(** The marker statement of kind [t] on [node]. *)
Definition marker (t : CoverageType) (node : Node) (suffix : list string)
  : Statement :=
  FunctionCallStatement fake
    (mkIdent
       (mkMeta (literalToken STRING ("coverage." +:+ CoverageType_String t)))
       ("coverage." +:+ CoverageType_String t))
    [String (mkMeta (literalToken STRING (markerId t node suffix)))
       (markerId t node suffix)].

(** The conditional statement generated for the inline conditional
    [expr], whose condition is [cond]. *)
Definition syntheticConditional (expr cond : Expression) : Statement :=
  IfStmt
    (mkIf "if" fake cond
       (mkBlock fake [marker CoverageTypeBranch (ExpressionNode expr) ["true"]])
       []
       (Some
          (mkElse fake
             (mkBlock fake
                [marker CoverageTypeBranch (ExpressionNode expr) ["false"]])))).

(** The two registration calls made for the inline conditional [expr]. *)
Definition syntheticCalls (expr : Expression) : list Setup :=
  [SetupBranch (markerId CoverageTypeBranch (ExpressionNode expr) ["true"])
     (ExpressionNode expr);
   SetupBranch (markerId CoverageTypeBranch (ExpressionNode expr) ["false"])
     (ExpressionNode expr)].

End definitions.

(** [inside e' e]: [e'] is a proper sub-expression of [e]. *)
Inductive child : Expression -> Expression -> Prop :=
| child_argument m f args e : e ∈ args -> child e (FunctionCallExpression m f args)
| child_grouped m r : child r (GroupedExpression m r)
| child_infix_left m l op r : child l (InfixExpression m l op r)
| child_infix_right m l op r : child r (InfixExpression m l op r)
| child_postfix m l op : child l (PostfixExpression m l op)
| child_prefix m op r : child r (PrefixExpression m op r)
| child_if_condition m c t f : child c (IfExpression m c t f)
| child_if_consequence m c t f : child t (IfExpression m c t f)
| child_if_alternative m c t f : child f (IfExpression m c t f).

Inductive inside : Expression -> Expression -> Prop :=
| inside_child e' e : child e' e -> inside e' e
| inside_step e'' e' e : inside e'' e' -> child e' e -> inside e'' e.

(** [reached e' e]: the traversal of [instrumentExpression] from [e]
    arrives at [e']: it passes through call arguments, grouped, infix,
    postfix and prefix operands, and stops at an inline conditional. *)
Inductive reached : Expression -> Expression -> Prop :=
| reached_here e : reached e e
| reached_argument e' m f args e :
    e ∈ args -> reached e' e -> reached e' (FunctionCallExpression m f args)
| reached_grouped e' m r : reached e' r -> reached e' (GroupedExpression m r)
| reached_infix_left e' m l op r :
    reached e' l -> reached e' (InfixExpression m l op r)
| reached_infix_right e' m l op r :
    reached e' r -> reached e' (InfixExpression m l op r)
| reached_postfix e' m l op :
    reached e' l -> reached e' (PostfixExpression m l op)
| reached_prefix e' m op r :
    reached e' r -> reached e' (PrefixExpression m op r).

Fixpoint Expression_size (e : Expression) : nat :=
  match e with
  | IdentExpression _ | String _ _ | Terminal _ => 1
  | FunctionCallExpression _ _ args =>
      S (list_sum (map Expression_size args))
  | GroupedExpression _ r => S (Expression_size r)
  | InfixExpression _ l _ r => S (Expression_size l + Expression_size r)
  | PostfixExpression _ l _ => S (Expression_size l)
  | PrefixExpression _ _ r => S (Expression_size r)
  | IfExpression _ c t f =>
      S (Expression_size c + Expression_size t + Expression_size f)
  end.

(** The inline conditionals at which the traversal of
    [instrumentExpression] stops, in traversal order, each with its
    condition. *)
Fixpoint reachedConditionals (e : Expression)
  : list (Expression * Expression) :=
  match e with
  | FunctionCallExpression _ _ args => flat_map reachedConditionals args
  | GroupedExpression _ r => reachedConditionals r
  | InfixExpression _ l _ r => reachedConditionals l ++ reachedConditionals r
  | PostfixExpression _ l _ => reachedConditionals l
  | PrefixExpression _ _ r => reachedConditionals r
  | IfExpression _ c _ _ => [(e, c)]
  | IdentExpression _ | String _ _ | Terminal _ => []
  end.

(** The expressions of a statement that [instrumentStatement] hands to
    [instrumentExpression]. *)
Definition operands (s : Statement) : list Expression :=
  match s with
  | FunctionCallStatement _ _ args => args
  | ErrorStatement _ code arg => option_list code ++ option_list arg
  | ReturnStatement _ e => option_list e
  | SetStatement _ value | AddStatement _ value | LogStatement _ value
  | SyntheticStatement _ value | SyntheticBase64Statement _ value => [value]
  | BlockStmt _ | IfStmt _ | SwitchStatement _ _ _ | PlainStatement _ _ => []
  end.


(** Induction on expressions, with the arguments of a call covered. *)
Section Expression_induction.
Variable P : Expression -> Prop.
Hypothesis Hident : forall i, P (IdentExpression i).
Hypothesis Hstring : forall m v, P (String m v).
Hypothesis Hterminal : forall m, P (Terminal m).
Hypothesis Hcall : forall m f args, Forall P args ->
  P (FunctionCallExpression m f args).
Hypothesis Hgrouped : forall m r, P r -> P (GroupedExpression m r).
Hypothesis Hinfix : forall m l op r, P l -> P r ->
  P (InfixExpression m l op r).
Hypothesis Hpostfix : forall m l op, P l -> P (PostfixExpression m l op).
Hypothesis Hprefix : forall m op r, P r -> P (PrefixExpression m op r).
Hypothesis Hif : forall m c t f, P c -> P t -> P f -> P (IfExpression m c t f).

Fixpoint Expression_induction (e : Expression) : P e :=
  match e with
  | IdentExpression i => Hident i
  | String m v => Hstring m v
  | Terminal m => Hterminal m
  | FunctionCallExpression m f args =>
      Hcall m f args
        ((fix all (l : list Expression) : Forall P l :=
            match l with
            | [] => @List.Forall_nil _ P
            | x :: l' =>
                @List.Forall_cons _ P x l' (Expression_induction x) (all l')
            end) args)
  | GroupedExpression m r => Hgrouped m r (Expression_induction r)
  | InfixExpression m l op r =>
      Hinfix m l op r (Expression_induction l) (Expression_induction r)
  | PostfixExpression m l op => Hpostfix m l op (Expression_induction l)
  | PrefixExpression m op r => Hprefix m op r (Expression_induction r)
  | IfExpression m c t f =>
      Hif m c t f (Expression_induction c) (Expression_induction t)
        (Expression_induction f)
  end.

End Expression_induction.

(** The bound used to tell the nodes registered inside a statement from
    the statement itself is its number of statement nodes. *)
Fixpoint Statement_size (s : Statement) : nat :=
  match s with
  | BlockStmt (mkBlock _ l) => S (list_sum (map Statement_size l))
  | IfStmt i => S (If_size i)
  | SwitchStatement _ _ cases =>
      S (list_sum
           (map
              (fun c =>
                 match c with
                 | mkCase _ _ l => list_sum (map Statement_size l)
                 end)
              cases))
  | FunctionCallStatement _ _ _ | ErrorStatement _ _ _ | ReturnStatement _ _
  | SetStatement _ _ | AddStatement _ _ | LogStatement _ _
  | SyntheticStatement _ _ | SyntheticBase64Statement _ _
  | PlainStatement _ _ => 1
  end
with If_size (i : IfStatement) : nat :=
  match i with
  | mkIf _ _ _ (mkBlock _ l) another alternative =>
      list_sum (map Statement_size l) +
      list_sum (map (fun a => S (If_size a)) another) +
      match alternative with
      | Some (mkElse _ (mkBlock _ le)) => list_sum (map Statement_size le)
      | None => 0
      end
  end.

Definition Statements_size (l : list Statement) : nat :=
  list_sum (map Statement_size l).

(** The size of the statement a node is; 0 for the other nodes. *)
Definition Node_size (n : Node) : nat :=
  match n with
  | StatementNode s => Statement_size s
  | ExpressionNode _ | CaseNode _ | SubroutineNode _ => 0
  end.

(** Every registration call names a node no larger than [n]. *)
Definition within (n : nat) (calls : list Setup) : Prop :=
  Forall (fun c => (Node_size (Setup_node c) <= n)%nat) calls.

(** The statements without statements inside. *)
Definition leaf (s : Statement) : Prop :=
  match s with
  | BlockStmt _ | IfStmt _ | SwitchStatement _ _ _ => False
  | _ => True
  end.

Definition Forall_all {A : Type} (P : A -> Prop) (f : forall x, P x)
  : forall l : list A, Forall P l :=
  fix all (l : list A) : Forall P l :=
    match l with
    | [] => @List.Forall_nil _ P
    | x :: l' => @List.Forall_cons _ P x l' (f x) (all l')
    end.

(** Induction on statements and conditional statements together, with
    the statements of blocks, clauses and cases covered. *)
Section Statement_induction.
Variable P : Statement -> Prop.
Variable Q : IfStatement -> Prop.
Hypothesis Hblock : forall m l, Forall P l -> P (BlockStmt (mkBlock m l)).
Hypothesis HifStmt : forall i, Q i -> P (IfStmt i).
Hypothesis Hswitch : forall m control cases,
  Forall (fun c => Forall P (Case_Statements c)) cases ->
  P (SwitchStatement m control cases).
Hypothesis Hleaf : forall s, leaf s -> P s.
Hypothesis Hif : forall kw m cond mb l another alternative,
  Forall P l -> Forall Q another ->
  match alternative with
  | Some e => Forall P (Block_Statements (Else_Consequence e))
  | None => True
  end ->
  Q (mkIf kw m cond (mkBlock mb l) another alternative).

Fixpoint Statement_induction (s : Statement) : P s :=
  match s with
  | BlockStmt (mkBlock m l) => Hblock m l (Forall_all P Statement_induction l)
  | IfStmt i => HifStmt i (If_induction i)
  | SwitchStatement m control cases =>
      Hswitch m control cases
        (Forall_all (fun c => Forall P (Case_Statements c))
           (fun c =>
              match c as c0 return Forall P (Case_Statements c0) with
              | mkCase _ _ l => Forall_all P Statement_induction l
              end)
           cases)
  | FunctionCallStatement m f args => Hleaf (FunctionCallStatement m f args) I
  | ErrorStatement m code arg => Hleaf (ErrorStatement m code arg) I
  | ReturnStatement m e => Hleaf (ReturnStatement m e) I
  | SetStatement m v => Hleaf (SetStatement m v) I
  | AddStatement m v => Hleaf (AddStatement m v) I
  | LogStatement m v => Hleaf (LogStatement m v) I
  | SyntheticStatement m v => Hleaf (SyntheticStatement m v) I
  | SyntheticBase64Statement m v => Hleaf (SyntheticBase64Statement m v) I
  | PlainStatement k m => Hleaf (PlainStatement k m) I
  end
with If_induction (i : IfStatement) : Q i :=
  match i with
  | mkIf kw m cond (mkBlock mb l) another alternative =>
      Hif kw m cond mb l another alternative
        (Forall_all P Statement_induction l)
        (Forall_all Q If_induction another)
        (match alternative as a0
           return match a0 with
                  | Some e => Forall P (Block_Statements (Else_Consequence e))
                  | None => True
                  end
         with
         | Some (mkElse _ (mkBlock _ le)) =>
             Forall_all P Statement_induction le
         | None => I
         end)
  end.

End Statement_induction.

Section observations.
Context {stringer : CoverageTypeStringer} {null : NullToken}.

(** The conditional statements generated for the inline conditionals
    reached from the expressions [es]. *)
Definition syntheticConditionals (es : list Expression) : list Statement :=
  map (fun p => syntheticConditional p.1 p.2) (flat_map reachedConditionals es).

(** The statement marker [instrumentStatement] creates for [s]: none for a
    block and for a function-call statement. *)
Definition statementMarker (s : Statement) : list Statement :=
  match s with
  | BlockStmt _ | FunctionCallStatement _ _ _ => []
  | _ => [marker CoverageTypeStatement (StatementNode s) []]
  end.

(** The registration call of that statement marker. *)
Definition statementCalls (s : Statement) : list Setup :=
  match s with
  | BlockStmt _ | FunctionCallStatement _ _ _ => []
  | _ =>
      [SetupStatement (markerId CoverageTypeStatement (StatementNode s) [])
         (StatementNode s)]
  end.

(** The registration calls made for the inline conditionals reached from
    the expressions [es]. *)
Definition syntheticCallsOf (es : list Expression) : list Setup :=
  flat_map (fun p => syntheticCalls p.1) (flat_map reachedConditionals es).

(** The statements put before [s], and [s] after the call. *)
Definition before (s : Statement) : list Statement :=
  (instrumentStatement s).1.1.

Definition after (s : Statement) : Statement := (instrumentStatement s).1.2.

(** The statement [s] is retained by [instrumentStatements] unless a
    conditional-chain or multi-way-match rewrite modifies it. *)
Definition retainedUnlessBranching (l : list Statement) : Prop :=
  forall s, s ∈ l ->
    (exists i, s = IfStmt i) \/
    (exists m control cases, s = SwitchStatement m control cases) \/
    s ∈ (instrumentStatements l).1.


(** A statement generated for some inline conditional. *)
Definition isSynthetic (s : Statement) : Prop :=
  exists expr cond, s = syntheticConditional expr cond.

(** A marker statement of some kind on some node. *)
Definition isMarker (s : Statement) : Prop :=
  exists t node suffix, s = marker t node suffix.

End observations.

(** *** Observations for the whole pass *)

(** The text [createMarker] appends for a suffix. *)
Definition suffixText (suffix : list string) : string :=
  if decide (suffix = []) then "" else "_" +:+ String.concat "_" suffix.

(** A text without the separator [_]. *)
Fixpoint underscoreFree (s : string) : Prop :=
  match s with
  | EmptyString => True
  | String.String a s' => a ≠ Ascii.ascii_of_nat 95 /\ underscoreFree s'
  end.

(** A text that is empty or starts with the separator. *)
Definition boundary (r : string) : Prop :=
  r = "" \/ exists r', r = String.String (Ascii.ascii_of_nat 95) r'.

(** No conditional statement in [s], at any depth, has else-if clauses
    left. *)
Fixpoint flattened (s : Statement) : bool :=
  match s with
  | BlockStmt (mkBlock _ l) => forallb flattened l
  | IfStmt i => flattenedIf i
  | SwitchStatement _ _ cases =>
      forallb
        (fun c => match c with mkCase _ _ l => forallb flattened l end)
        cases
  | _ => true
  end
with flattenedIf (i : IfStatement) : bool :=
  match i with
  | mkIf _ _ _ (mkBlock _ l) another alternative =>
      match another with [] => true | _ :: _ => false end &&
      forallb flattened l &&
      match alternative with
      | Some (mkElse _ (mkBlock _ le)) => forallb flattened le
      | None => true
      end
  end.

Definition flattenedElse (e : option ElseStatement) : bool :=
  match e with
  | Some (mkElse _ (mkBlock _ le)) => forallb flattened le
  | None => true
  end.

(** The number of statements of [s], at any depth, that get a statement
    marker: all but blocks and function-call statements. *)
Fixpoint statementPoints (s : Statement) : nat :=
  match s with
  | BlockStmt (mkBlock _ l) => list_sum (map statementPoints l)
  | IfStmt i => S (ifStatementPoints i)
  | SwitchStatement _ _ cases =>
      S (list_sum
           (map
              (fun c =>
                 match c with
                 | mkCase _ _ l => list_sum (map statementPoints l)
                 end)
              cases))
  | FunctionCallStatement _ _ _ => 0
  | _ => 1
  end
with ifStatementPoints (i : IfStatement) : nat :=
  match i with
  | mkIf _ _ _ (mkBlock _ l) another alternative =>
      list_sum (map statementPoints l) +
      list_sum (map ifStatementPoints another) +
      match alternative with
      | Some (mkElse _ (mkBlock _ le)) => list_sum (map statementPoints le)
      | None => 0
      end
  end.

(** The number of branch markers created for [s], at any depth: two per
    inline conditional reached from an operand, one per clause of a
    conditional statement and one more per else-if clause, two per case
    of a switch statement. *)
Fixpoint branchPoints (s : Statement) : nat :=
  match s with
  | BlockStmt (mkBlock _ l) => list_sum (map branchPoints l)
  | IfStmt i => ifBranchPoints i
  | SwitchStatement _ _ cases =>
      list_sum
        (map
           (fun c =>
              match c with
              | mkCase _ _ l => S (S (list_sum (map branchPoints l)))
              end)
           cases)
  | _ => 2 * length (flat_map reachedConditionals (operands s))
  end
with ifBranchPoints (i : IfStatement) : nat :=
  match i with
  | mkIf _ _ _ (mkBlock _ l) another alternative =>
      S (list_sum (map branchPoints l)) +
      list_sum (map (fun a => S (ifBranchPoints a)) another) +
      match alternative with
      | Some (mkElse _ (mkBlock _ le)) => S (list_sum (map branchPoints le))
      | None => 0
      end
  end.

(** The number of registration calls of a kind. *)
Definition countKind (k : CoverageType) (calls : list Setup) : nat :=
  length (filter (fun c => Setup_kind c = k) calls).

(** The markers a statement is due, by kind. *)
Definition points (k : CoverageType) (s : Statement) : nat :=
  match k with
  | CoverageTypeSubroutine => 0
  | CoverageTypeStatement => statementPoints s
  | CoverageTypeBranch => branchPoints s
  end.

Definition ifPoints (k : CoverageType) (i : IfStatement) : nat :=
  match k with
  | CoverageTypeSubroutine => 0
  | CoverageTypeStatement => ifStatementPoints i
  | CoverageTypeBranch => ifBranchPoints i
  end.

(** The markers of a kind due to the statements of the cases of a switch
    statement. *)
Definition casesPoints (k : CoverageType) (cases : list CaseStatement)
  : nat :=
  list_sum (map (fun c => list_sum (map (points k) (Case_Statements c))) cases).

(** The subroutine declarations of a program, in order. *)
Definition subroutines (vcl : VCL) : list SubroutineDeclaration :=
  flat_map
    (fun v =>
       match v with
       | Subroutine sub => [sub]
       | OtherDeclaration _ => []
       end)
    (VCL_Statements vcl).

(** ** Concrete inputs

    Instances of the parameters and a few trees, on which the properties
    below are evaluated. *)

Definition exampleStringer : CoverageTypeStringer :=
  fun t =>
    match t with
    | CoverageTypeSubroutine => "subroutine"
    | CoverageTypeStatement => "statement"
    | CoverageTypeBranch => "branch"
    end.

Definition exampleNull : NullToken := literalToken (OtherType "NULL") "NULL".

(** The meta of a node at a line and column of [main.vcl]. *)
Definition at_ (line column : Z) : Meta :=
  mkMeta (mkToken (OtherType "IDENT") "" line column "main.vcl").

Definition var (line column : Z) (name : string) : Expression :=
  IdentExpression (mkIdent (at_ line column) name).

(** [if(if(a, b, c), d, e)] *)
Definition innerConditional : Expression :=
  IfExpression (at_ 3 25) (var 3 28 "a") (var 3 31 "b") (var 3 34 "c").

Definition outerConditional : Expression :=
  IfExpression (at_ 3 22) innerConditional (var 3 38 "d") (var 3 41 "e").

(** [set x = if(if(a, b, c), d, e);] *)
Definition setNested : Statement := SetStatement (at_ 3 3) outerConditional.

(** [if (a) { } else if (b) { } else if (c) { } else { }], the clauses on
    lines 10, 12, 14 and 16. *)
Definition sampleChain : IfStatement :=
  mkIf "if" (at_ 10 3) (var 10 7 "a") (mkBlock (at_ 10 10) [])
    [mkIf "else" (at_ 12 3) (var 12 12 "b") (mkBlock (at_ 12 15) []) [] None;
     mkIf "else" (at_ 14 3) (var 14 12 "c") (mkBlock (at_ 14 15) []) [] None]
    (Some (mkElse (at_ 16 3) (mkBlock (at_ 16 8) []))).

(** [switch (x) { case "1": esi; default: restart; }] *)
Definition sampleSwitch : Statement :=
  SwitchStatement (at_ 20 3) (var 20 11 "x")
    [mkCase (at_ 21 3) (Some (String (at_ 21 8) "1"))
       [PlainStatement EsiStatement (at_ 22 5)];
     mkCase (at_ 23 3) None [PlainStatement RestartStatement (at_ 24 5)]].

(** [f(x, if(a, b, c));] *)
Definition sampleCall : Statement :=
  FunctionCallStatement (at_ 30 3) (mkIdent (at_ 30 3) "f")
    [var 30 5 "x"; IfExpression (at_ 30 8) (var 30 11 "a") (var 30 14 "b")
                     (var 30 17 "c")].


(** [sub vcl_recv { esi; }] next to a declaration that is not a
    subroutine. *)
Definition sampleVCL : VCL :=
  mkVCL
    [OtherDeclaration (at_ 1 1);
     Subroutine
       (mkSub (at_ 2 1) (mkIdent (at_ 2 5) "vcl_recv")
          (mkBlock (at_ 2 14) [PlainStatement EsiStatement (at_ 3 5)]))].

(** [{ esi; }] *)
Definition esiBlock : Statement :=
  BlockStmt (mkBlock (at_ 2 3) [PlainStatement EsiStatement (at_ 3 5)]).

(** ** The marker factory *)

Section marker.
Context {stringer : CoverageTypeStringer} {null : NullToken}.

Lemma append_assoc (a b c : string) : (a +:+ b) +:+ c = a +:+ (b +:+ c).
Proof.
  induction a as [|x a IH]; [reflexivity |].
  change (String.String x ((a +:+ b) +:+ c) =
          String.String x (a +:+ (b +:+ c))).
  by rewrite IH.
Qed.

Lemma createMarker_eq (t : CoverageType) (node : Node)
    (suffix : list string) :
  createMarker t node suffix =
    (markerCall ("coverage." +:+ CoverageType_String t)
       (markerId t node suffix),
     [setupCall t (markerId t node suffix) node]).
Proof.
  unfold createMarker, markerId, identifier, Sprintf_position.
  assert (Hs : match suffix with
               | [] => ""
               | _ :: _ => "_" +:+ String.concat "_" suffix
               end =
               if decide (suffix = []) then ""
               else "_" +:+ String.concat "_" suffix)
    by (destruct suffix; done).
  rewrite Hs.
  destruct t; cbn [kindPrefix setupCall]; rewrite !append_assoc; reflexivity.
Qed.

Lemma setupCall_kind (t : CoverageType) (id : string) (node : Node) :
  Setup_kind (setupCall t id node) = t.
Proof. by destruct t. Qed.

Lemma bucket_call_eq (t : CoverageType) (id : string) (node : Node)
    (c : Coverage) :
  bucket t (call (setupCall t id node) c) =
    <[id := mkEntry node false]> (bucket t c).
Proof. by destruct t. Qed.

Lemma bucket_call_ne (t t' : CoverageType) (id : string) (node : Node)
    (c : Coverage) :
  t' ≠ t -> bucket t' (call (setupCall t id node) c) = bucket t' c.
Proof. by destruct t, t'. Qed.

Lemma createMarker_fst (t : CoverageType) (node : Node)
    (suffix : list string) :
  (createMarker t node suffix).1 = marker t node suffix.
Proof. by rewrite createMarker_eq. Qed.

Lemma createMarker_snd (t : CoverageType) (node : Node)
    (suffix : list string) :
  (createMarker t node suffix).2 = [setupCall t (markerId t node suffix) node].
Proof. by rewrite createMarker_eq. Qed.

(** C8: [createMarker(kind, node, suffix)] returns a call statement of the
    built-in [coverage.<kind name>] whose only argument is the string
    literal of the derived identifier, and makes one registration call:
    the one of the kind, which maps the identifier to [node], not yet
    covered, in the bucket of that kind and leaves the other buckets as
    they are. *)
Theorem createMarker_call_and_registration (t : CoverageType) (node : Node)
    (suffix : list string) (c : Coverage) (t' : CoverageType) :
  createMarker t node suffix =
    (FunctionCallStatement fake
       (mkIdent
          (mkMeta
             (literalToken STRING ("coverage." +:+ CoverageType_String t)))
          ("coverage." +:+ CoverageType_String t))
       [String (mkMeta (literalToken STRING (markerId t node suffix)))
          (markerId t node suffix)],
     [setupCall t (markerId t node suffix) node]) /\
  Setup_kind (setupCall t (markerId t node suffix) node) = t /\
  bucket t (register (createMarker t node suffix).2 c)
    !! markerId t node suffix = Some (mkEntry node false) /\
  bucket t' (register (createMarker t node suffix).2 c) =
    if decide (t' = t)
    then <[markerId t node suffix := mkEntry node false]> (bucket t' c)
    else bucket t' c.
Proof.
  rewrite createMarker_eq. cbn [snd register foldl].
  split; [reflexivity |]. split; [apply setupCall_kind |].
  split.
  - rewrite bucket_call_eq. apply lookup_insert_eq.
  - case_decide as Ht.
    + subst t'. apply bucket_call_eq.
    + by apply bucket_call_ne.
Qed.

End marker.

(** ** Computations that make registration calls *)

Lemma bind_eq {A B : Type} (m : W A) (k : A -> W B) :
  bind m k = ((k m.1).1, m.2 ++ (k m.1).2).
Proof. unfold bind. destruct m as [a l1]. simpl. by destruct (k a). Qed.

Lemma ret_eq {A : Type} (a : A) : ret a = (a, @nil Setup).
Proof. reflexivity. Qed.

Lemma appendEach_nil {A B : Type} (f : A -> W (list B)) :
  appendEach f [] = ([], []).
Proof. reflexivity. Qed.

Lemma appendEach_cons {A B : Type} (f : A -> W (list B)) (x : A)
    (xs : list A) :
  appendEach f (x :: xs) =
    ((f x).1 ++ (appendEach f xs).1, (f x).2 ++ (appendEach f xs).2).
Proof.
  change (appendEach f (x :: xs))
    with (s1 <- f x ;; s2 <- appendEach f xs ;; ret (s1 ++ s2)).
  rewrite !bind_eq. simpl. by rewrite app_nil_r.
Qed.

Lemma appendEach_eq {A B : Type} (f : A -> W (list B)) (xs : list A) :
  appendEach f xs =
    (concat (map (fun x => (f x).1) xs), concat (map (fun x => (f x).2) xs)).
Proof.
  induction xs as [|x xs IH]; [reflexivity |].
  rewrite appendEach_cons, IH. reflexivity.
Qed.

Lemma appendEach_app {A B : Type} (f : A -> W (list B)) (xs ys : list A) :
  appendEach f (xs ++ ys) =
    ((appendEach f xs).1 ++ (appendEach f ys).1,
     (appendEach f xs).2 ++ (appendEach f ys).2).
Proof.
  rewrite !appendEach_eq. simpl. by rewrite !map_app, !concat_app.
Qed.

(** ** The expression instrumenter *)

Section expression.
Context {stringer : CoverageTypeStringer} {null : NullToken}.

Lemma instrumentIfExpression_eq (expr cond : Expression) :
  instrumentIfExpression expr cond =
    ([syntheticConditional expr cond], syntheticCalls expr).
Proof.
  unfold instrumentIfExpression. rewrite !bind_eq, !createMarker_eq.
  reflexivity.
Qed.

Lemma instrumentExpression_eq (e : Expression) :
  instrumentExpression e =
    (map (fun p => syntheticConditional p.1 p.2) (reachedConditionals e),
     flat_map (fun p => syntheticCalls p.1) (reachedConditionals e)).
Proof.
  induction e as [| | |m f args IH|m r IH|m l op r IHl IHr|m l op IH
                 |m op r IH|m c t f IHc IHt IHf]
    using Expression_induction; try reflexivity.
  - cbn [instrumentExpression reachedConditionals].
    induction IH as [|x xs Hx _ IHxs]; [reflexivity |].
    rewrite appendEach_cons, IHxs, Hx. cbn [fst snd flat_map].
    by rewrite map_app, flat_map_app.
  - exact IH.
  - cbn [instrumentExpression reachedConditionals].
    rewrite !bind_eq, IHl, IHr. cbn [fst snd ret].
    by rewrite app_nil_r, map_app, flat_map_app.
  - exact IH.
  - exact IH.
  - cbn [instrumentExpression reachedConditionals].
    rewrite instrumentIfExpression_eq. reflexivity.
Qed.

Lemma instrumentArguments_eq (args : list Expression) :
  appendEach instrumentExpression args =
    (syntheticConditionals args, syntheticCallsOf args).
Proof.
  unfold syntheticConditionals, syntheticCallsOf.
  induction args as [|x xs IH]; [reflexivity |].
  rewrite appendEach_cons, IH, instrumentExpression_eq.
  cbn [fst snd flat_map]. by rewrite map_app, flat_map_app.
Qed.

Lemma instrumentOptional_eq (e : option Expression) :
  instrumentOptional e =
    (syntheticConditionals (option_list e), syntheticCallsOf (option_list e)).
Proof.
  destruct e as [e|]; [|reflexivity].
  cbn [instrumentOptional option_list]. rewrite instrumentExpression_eq.
  unfold syntheticConditionals, syntheticCallsOf.
  change (option_list (Some e)) with [e]. cbn [flat_map].
  by rewrite app_nil_r.
Qed.

Lemma syntheticConditionals_app (es1 es2 : list Expression) :
  syntheticConditionals (es1 ++ es2) =
    syntheticConditionals es1 ++ syntheticConditionals es2.
Proof. unfold syntheticConditionals. by rewrite flat_map_app, map_app. Qed.

Lemma syntheticConditionals_synthetic (es : list Expression) :
  Forall isSynthetic (syntheticConditionals es).
Proof.
  unfold syntheticConditionals. apply Forall_forall. intros s Hs.
  apply list_elem_of_In, in_map_iff in Hs as (p & <- & _).
  by exists p.1, p.2.
Qed.

Lemma syntheticCallsOf_app (es1 es2 : list Expression) :
  syntheticCallsOf (es1 ++ es2) = syntheticCallsOf es1 ++ syntheticCallsOf es2.
Proof. unfold syntheticCallsOf. by rewrite !flat_map_app. Qed.

Lemma syntheticCallsOf_branch (es : list Expression) :
  Forall
    (fun c =>
       Setup_kind c = CoverageTypeBranch /\
       exists e, Setup_node c = ExpressionNode e)
    (syntheticCallsOf es).
Proof.
  unfold syntheticCallsOf. apply Forall_forall. intros c Hc.
  apply list_elem_of_In, in_flat_map in Hc as (p & _ & Hc).
  apply list_elem_of_In in Hc. unfold syntheticCalls in Hc.
  apply elem_of_cons in Hc as [->|Hc];
    [|apply list_elem_of_singleton in Hc as ->]; split; eauto.
Qed.

Lemma child_size (e' e : Expression) :
  child e' e -> (Expression_size e' < Expression_size e)%nat.
Proof.
  destruct 1 as [m f args e Hin| | | | | | | |]; cbn [Expression_size];
    try lia.
  induction Hin as [x xs|x y xs _ IH]; simpl; lia.
Qed.

Lemma inside_size (e' e : Expression) :
  inside e' e -> (Expression_size e' < Expression_size e)%nat.
Proof.
  induction 1 as [e' e Hc|e'' e' e _ IH Hc]; apply child_size in Hc; lia.
Qed.

Lemma inside_ne (e' e : Expression) : inside e' e -> e' ≠ e.
Proof. intros Hin ->. apply inside_size in Hin. lia. Qed.

Lemma reachedConditionals_reached (e : Expression)
    (p : Expression * Expression) :
  p ∈ reachedConditionals e ->
  reached p.1 e /\ exists m t f, p.1 = IfExpression m p.2 t f.
Proof.
  induction e as [| | |m f args IH|m r IH|m l op r IHl IHr|m l op IH
                 |m op r IH|m c t f IHc IHt IHf]
    using Expression_induction; cbn [reachedConditionals];
    try (intros Hp; by apply elem_of_nil in Hp).
  - intros Hp. apply list_elem_of_In, in_flat_map in Hp.
    destruct Hp as (x & Hx & Hp). apply list_elem_of_In in Hx, Hp.
    rewrite Forall_forall in IH. destruct (IH x Hx Hp) as [Hr Hif].
    split; [by eapply reached_argument | done].
  - intros Hp. destruct (IH Hp). split; [by constructor | done].
  - intros Hp. apply elem_of_app in Hp as [Hp|Hp].
    + destruct (IHl Hp). split; [by apply reached_infix_left | done].
    + destruct (IHr Hp). split; [by apply reached_infix_right | done].
  - intros Hp. destruct (IH Hp). split; [by constructor | done].
  - intros Hp. destruct (IH Hp). split; [by constructor | done].
  - intros Hp. apply list_elem_of_singleton in Hp as ->.
    split; [constructor | by eexists _, _, _].
Qed.


(** C9: the expression instrumenter stops at an inline conditional: for
    [if(cond, cons, alt)] it returns the one conditional statement
    generated for that expression and makes the two registration calls of
    that expression, whatever [cond], [cons] and [alt] contain; no
    registration call names an expression nested inside it. *)
Theorem instrumentExpression_stops_at_conditional (m : Meta)
    (cond cons alt e' : Expression) :
  inside e' (IfExpression m cond cons alt) ->
  instrumentExpression (IfExpression m cond cons alt) =
    ([syntheticConditional (IfExpression m cond cons alt) cond],
     syntheticCalls (IfExpression m cond cons alt)) /\
  Forall (fun s => Setup_node s ≠ ExpressionNode e')
    (instrumentExpression (IfExpression m cond cons alt)).2.
Proof.
  intros Hin. split; [apply instrumentIfExpression_eq |].
  cbn [instrumentExpression]. rewrite instrumentIfExpression_eq.
  apply inside_ne in Hin.
  repeat constructor; cbn [Setup_node]; congruence.
Qed.

End expression.

Lemma instrumentExpression_stops_at_conditional_witness :
  inside innerConditional outerConditional /\
  (instrumentExpression (stringer := exampleStringer) (null := exampleNull)
     outerConditional =
     ([syntheticConditional (stringer := exampleStringer)
         (null := exampleNull) outerConditional innerConditional],
      syntheticCalls outerConditional) /\
   Forall (fun s => Setup_node s ≠ ExpressionNode innerConditional)
     (instrumentExpression (stringer := exampleStringer)
        (null := exampleNull) outerConditional).2).
Proof.
  assert (Hin : inside innerConditional outerConditional)
    by (apply inside_child; apply child_if_condition).
  split; [exact Hin |].
  exact (instrumentExpression_stops_at_conditional (stringer := exampleStringer)
           (null := exampleNull) _ _ _ _ _ Hin).
Defined.

(** ** The statement instrumenter *)

Section statement.
Context {stringer : CoverageTypeStringer} {null : NullToken}.

Lemma withStatement_eq (f : Statement -> W (list Statement * Statement))
    (s : Statement) :
  withStatement f s = ((f s).1.1 ++ [(f s).1.2], (f s).2).
Proof. unfold withStatement. rewrite bind_eq. simpl. by rewrite app_nil_r. Qed.

Lemma instrumentStatements_nil : instrumentStatements [] = ([], []).
Proof. reflexivity. Qed.

Lemma instrumentStatements_cons (s : Statement) (l : list Statement) :
  instrumentStatements (s :: l) =
    (before s ++ after s :: (instrumentStatements l).1,
     (instrumentStatement s).2 ++ (instrumentStatements l).2).
Proof.
  unfold instrumentStatements. rewrite appendEach_cons, withStatement_eq.
  cbn [fst snd]. by rewrite <- app_assoc.
Qed.

Lemma instrumentStatements_eq (l : list Statement) :
  instrumentStatements l =
    (concat (map (fun s => before s ++ [after s]) l),
     concat (map (fun s => (instrumentStatement s).2) l)).
Proof.
  induction l as [|s l IH]; [reflexivity |].
  rewrite instrumentStatements_cons, IH. cbn [fst snd map concat].
  by rewrite <- app_assoc.
Qed.

Lemma instrumentStatement_block (m : Meta) (l : list Statement) :
  instrumentStatement (BlockStmt (mkBlock m l)) =
    (([], BlockStmt (mkBlock m (instrumentStatements l).1)),
     (instrumentStatements l).2).
Proof.
  change (instrumentStatement (BlockStmt (mkBlock m l)))
    with (l' <- instrumentStatements l ;;
          ret (@nil Statement, BlockStmt (mkBlock m l'))).
  rewrite bind_eq. simpl. by rewrite app_nil_r.
Qed.

Lemma instrumentStatement_if (t : IfStatement) :
  instrumentStatement (IfStmt t) =
    (([marker CoverageTypeStatement (StatementNode (IfStmt t)) []],
      IfStmt (instrumentIfStatement t).1),
     SetupStatement
       (markerId CoverageTypeStatement (StatementNode (IfStmt t)) [])
       (StatementNode (IfStmt t)) :: (instrumentIfStatement t).2).
Proof.
  change (instrumentStatement (IfStmt t))
    with (mk <- createMarker CoverageTypeStatement
                  (StatementNode (IfStmt t)) [] ;;
          t' <- instrumentIfStatement t ;; ret ([mk], IfStmt t')).
  rewrite !bind_eq, createMarker_eq. simpl. by rewrite app_nil_r.
Qed.

Lemma instrumentStatement_switch (m : Meta) (control : Expression)
    (cases : list CaseStatement) :
  instrumentStatement (SwitchStatement m control cases) =
    (([marker CoverageTypeStatement
         (StatementNode (SwitchStatement m control cases)) []],
      SwitchStatement m control
        (instrumentSwitchStatement (SwitchStatement m control cases)
           cases).1),
     SetupStatement
       (markerId CoverageTypeStatement
          (StatementNode (SwitchStatement m control cases)) [])
       (StatementNode (SwitchStatement m control cases)) ::
     (instrumentSwitchStatement (SwitchStatement m control cases)
        cases).2).
Proof.
  change (instrumentStatement (SwitchStatement m control cases))
    with (mk <- createMarker CoverageTypeStatement
                  (StatementNode (SwitchStatement m control cases)) [] ;;
          cases' <- instrumentSwitchStatement
                      (SwitchStatement m control cases) cases ;;
          ret ([mk], SwitchStatement m control cases')).
  rewrite !bind_eq, createMarker_eq. simpl. by rewrite app_nil_r.
Qed.

Lemma instrumentStatement_leaf (s : Statement) :
  leaf s -> after s = s.
Proof. destruct s; try done; intros _; unfold after; cbn [instrumentStatement];
  by rewrite bind_eq. Qed.

(** The five kinds of statement with a single value expression take the
    same steps. *)
Ltac value_statement :=
  unfold instrumentValue;
  rewrite !bind_eq, createMarker_eq, instrumentExpression_eq;
  unfold syntheticConditionals, syntheticCallsOf; simpl;
  by rewrite !app_nil_r.

Lemma instrumentStatement_leaf_eq (s : Statement) :
  leaf s ->
  instrumentStatement s =
    ((statementMarker s ++ syntheticConditionals (operands s), s),
     statementCalls s ++ syntheticCallsOf (operands s)).
Proof.
  destruct s as [| | |m f args|m code arg|m e|m v|m v|m v|m v|m v|k m];
    try done; intros _; cbn [instrumentStatement operands statementMarker
                               statementCalls].
  - unfold instrumentFunctionCallStatement.
    rewrite bind_eq, instrumentArguments_eq. simpl. by rewrite app_nil_r.
  - unfold instrumentErrorStatement.
    rewrite !bind_eq, createMarker_eq, !instrumentOptional_eq.
    rewrite syntheticConditionals_app, syntheticCallsOf_app. simpl.
    by rewrite !app_nil_r.
  - unfold instrumentReturnStatement.
    rewrite !bind_eq, createMarker_eq, instrumentOptional_eq. simpl.
    by rewrite !app_nil_r.
  - value_statement.
  - value_statement.
  - value_statement.
  - value_statement.
  - value_statement.
  - rewrite !bind_eq, createMarker_eq. reflexivity.
Qed.

Lemma instrumentStatements_app (l1 l2 : list Statement) :
  instrumentStatements (l1 ++ l2) =
    ((instrumentStatements l1).1 ++ (instrumentStatements l2).1,
     (instrumentStatements l1).2 ++ (instrumentStatements l2).2).
Proof. apply appendEach_app. Qed.

(** C4: a function-call statement gets no statement marker: the
    statements put before it are the conditional statements generated for
    the inline conditionals reached from its arguments, the registration
    calls made are branch registrations of those expressions, the call
    statement itself is unchanged, and in the enclosing list the generated
    statements stand immediately before it. *)
Theorem function_call_statement_no_marker (m : Meta) (f : Ident)
    (args : list Expression) (l1 l2 : list Statement) :
  instrumentStatement (FunctionCallStatement m f args) =
    ((concat (map (fun arg => (instrumentExpression arg).1) args),
      FunctionCallStatement m f args),
     concat (map (fun arg => (instrumentExpression arg).2) args)) /\
  Forall isSynthetic (before (FunctionCallStatement m f args)) /\
  Forall
    (fun c =>
       Setup_kind c = CoverageTypeBranch /\
       exists e, Setup_node c = ExpressionNode e)
    (instrumentStatement (FunctionCallStatement m f args)).2 /\
  (instrumentStatements (l1 ++ FunctionCallStatement m f args :: l2)).1 =
    (instrumentStatements l1).1 ++
    before (FunctionCallStatement m f args) ++
    FunctionCallStatement m f args :: (instrumentStatements l2).1.
Proof.
  split; [|split; [|split]].
  - cbn [instrumentStatement]. unfold instrumentFunctionCallStatement.
    rewrite bind_eq, appendEach_eq. simpl. by rewrite app_nil_r.
  - unfold before. rewrite instrumentStatement_leaf_eq by done.
    apply syntheticConditionals_synthetic.
  - rewrite instrumentStatement_leaf_eq by done.
    apply syntheticCallsOf_branch.
  - rewrite instrumentStatements_app, instrumentStatements_cons.
    cbn [fst snd]. unfold after.
    by rewrite instrumentStatement_leaf_eq.
Qed.

Lemma before_marker_or_synthetic (s : Statement) :
  Forall (fun x => isMarker x \/ isSynthetic x) (before s).
Proof.
  assert (Hleaf : leaf s ->
            Forall (fun x => isMarker x \/ isSynthetic x) (before s)).
  { intros Hs. unfold before. rewrite instrumentStatement_leaf_eq by done.
    cbn [fst]. apply Forall_app. split.
    - destruct s; try done; cbn [statementMarker];
        first [ apply Forall_nil_2
              | apply Forall_cons_2;
                  [left; by eexists _, _, _ | apply Forall_nil_2] ].
    - eapply Forall_impl; [apply syntheticConditionals_synthetic |].
      by right. }
  destruct s as [[m l]|i|m control cases| | | | | | | | |];
    try (by apply Hleaf); unfold before.
  - rewrite instrumentStatement_block. apply Forall_nil_2.
  - rewrite instrumentStatement_if.
    apply Forall_cons_2; [left; by eexists _, _, _ | apply Forall_nil_2].
  - rewrite instrumentStatement_switch.
    apply Forall_cons_2; [left; by eexists _, _, _ | apply Forall_nil_2].
Qed.

(** C5, as amended: [instrumentStatements] returns, for every input
    statement in its original order, the statements put before it,
    markers and conditionals generated for inline conditionals only, then
    the statement itself; the statement is unchanged unless it is a block,
    whose statements are replaced by their instrumented list, a
    conditional statement, rewritten by [instrumentIfStatement], or a
    switch statement, rewritten by [instrumentSwitchStatement]. *)
Theorem instrumentStatements_preserves_order (l : list Statement) :
  (instrumentStatements l).1 =
    concat (map (fun s => before s ++ [after s]) l) /\
  Forall
    (fun s => Forall (fun x => isMarker x \/ isSynthetic x) (before s)) l /\
  Forall
    (fun s =>
       after s =
         match s with
         | BlockStmt (mkBlock m l0) =>
             BlockStmt (mkBlock m (instrumentStatements l0).1)
         | IfStmt i => IfStmt (instrumentIfStatement i).1
         | SwitchStatement m control cases =>
             SwitchStatement m control
               (instrumentSwitchStatement s cases).1
         | _ => s
         end) l.
Proof.
  split; [by rewrite instrumentStatements_eq |].
  split; apply Forall_forall; intros s _.
  - apply before_marker_or_synthetic.
  - destruct s as [[m l0]|i|m control cases| | | | | | | | |];
      try (by apply instrumentStatement_leaf); unfold after.
    + by rewrite instrumentStatement_block.
    + by rewrite instrumentStatement_if.
    + by rewrite instrumentStatement_switch.
Qed.



End statement.

(** ** The switch and conditional-chain rewriters *)

Section branching.
Context {stringer : CoverageTypeStringer} {null : NullToken}.

Lemma eachCase_cons (body : Z -> CaseStatement -> W CaseStatement)
    (branch : Z) (c : CaseStatement) (cases : list CaseStatement) :
  eachCase body branch (c :: cases) =
    ((body branch c).1 :: (eachCase body (branch + 1) cases).1,
     (body branch c).2 ++ (eachCase body (branch + 1) cases).2).
Proof.
  change (eachCase body branch (c :: cases))
    with (c' <- body branch c ;;
          rest <- eachCase body (branch + 1) cases ;; ret (c' :: rest)).
  rewrite !bind_eq. simpl. by rewrite app_nil_r.
Qed.

Lemma eachCase_eq (body : Z -> CaseStatement -> W CaseStatement)
    (branch : Z) (cases : list CaseStatement) :
  eachCase body branch cases =
    (imap (fun k c => (body (branch + Z.of_nat k) c).1) cases,
     concat (imap (fun k c => (body (branch + Z.of_nat k) c).2) cases)).
Proof.
  revert branch. induction cases as [|c cases IH]; intros branch;
    [reflexivity |].
  rewrite eachCase_cons, IH. cbn [imap fst snd concat].
  rewrite Z.add_0_r. f_equal; [f_equal | f_equal; f_equal];
    apply imap_ext; intros k x _; simpl; do 2 f_equal; lia.
Qed.

Lemma instrumentCase_eq (stmt : Statement) (branch : Z) (c : CaseStatement) :
  instrumentCase stmt branch c =
    (mkCase (Case_GetMeta c) (Case_Test c)
       (marker CoverageTypeBranch (StatementNode stmt) [pretty branch] ::
        marker CoverageTypeBranch (CaseNode c) [] ::
        (instrumentStatements (Case_Statements c)).1),
     SetupBranch
       (markerId CoverageTypeBranch (StatementNode stmt) [pretty branch])
       (StatementNode stmt) ::
     SetupBranch (markerId CoverageTypeBranch (CaseNode c) []) (CaseNode c) ::
     (instrumentStatements (Case_Statements c)).2).
Proof.
  destruct c as [mc test l]. unfold instrumentCase.
  rewrite !bind_eq, !createMarker_eq. simpl. by rewrite app_nil_r.
Qed.

Lemma eachAnother_nil (instrumentIf : IfStatement -> W IfStatement)
    (mk : Z -> W Statement) (trailing : Z -> W (option ElseStatement))
    (branch : Z) :
  eachAnother instrumentIf mk trailing branch [] = trailing branch.
Proof. reflexivity. Qed.

Lemma eachAnother_cons (instrumentIf : IfStatement -> W IfStatement)
    (mk : Z -> W Statement) (trailing : Z -> W (option ElseStatement))
    (branch : Z) (a : IfStatement) (another : list IfStatement) :
  eachAnother instrumentIf mk trailing branch (a :: another) =
    (Some
       (mkElse fake
          (mkBlock fake
             [(mk (branch + 1)).1;
              IfStmt
                (attach (instrumentIf a).1
                   (eachAnother instrumentIf mk trailing (branch + 1)
                      another).1)])),
     (instrumentIf a).2 ++ (mk (branch + 1)).2 ++
     (eachAnother instrumentIf mk trailing (branch + 1) another).2).
Proof.
  change (eachAnother instrumentIf mk trailing branch (a :: another))
    with (a' <- instrumentIf a ;;
          m <- mk (branch + 1) ;;
          next <- eachAnother instrumentIf mk trailing (branch + 1) another ;;
          ret (Some (mkElse fake (mkBlock fake [m; IfStmt (attach a' next)])))).
  rewrite !bind_eq. simpl. by rewrite app_nil_r.
Qed.

Lemma instrumentAlternative_some (node : Node) (me meb : Meta)
    (le : list Statement) (branch : Z) :
  instrumentAlternative node (Some (mkElse me (mkBlock meb le))) branch =
    (Some
       (mkElse me
          (mkBlock meb
             (marker CoverageTypeBranch node [pretty (branch + 1)] ::
              (instrumentStatements le).1))),
     SetupBranch (markerId CoverageTypeBranch node [pretty (branch + 1)])
       node :: (instrumentStatements le).2).
Proof.
  unfold instrumentAlternative. rewrite !bind_eq, createMarker_eq. simpl.
  by rewrite app_nil_r.
Qed.

Lemma instrumentIfStatementKw_eq (kw : option string) (keyword : string)
    (m : Meta) (cond : Expression) (mb : Meta) (l : list Statement)
    (another : list IfStatement) (alternative : option ElseStatement) :
  instrumentIfStatementKw kw
    (mkIf keyword m cond (mkBlock mb l) another alternative) =
  let stmt :=
    mkIf (default keyword kw) m cond (mkBlock mb l) another alternative in
  let node := StatementNode (IfStmt stmt) in
  let chain :=
    eachAnother (instrumentIfStatementKw (Some "if"))
      (fun branch => createMarker CoverageTypeBranch node [pretty branch])
      (instrumentAlternative node alternative) 1 another in
  (mkIf (default keyword kw) m cond
     (mkBlock mb
        (marker CoverageTypeBranch node ["1"] :: (instrumentStatements l).1))
     [] chain.1,
   SetupBranch (markerId CoverageTypeBranch node ["1"]) node ::
   (instrumentStatements l).2 ++ chain.2).
Proof.
  cbv zeta.
  set (stmt := mkIf (default keyword kw) m cond (mkBlock mb l) another
                 alternative).
  set (node := StatementNode (IfStmt stmt)).
  change (instrumentIfStatementKw kw
            (mkIf keyword m cond (mkBlock mb l) another alternative))
    with (m1 <- createMarker CoverageTypeBranch node [pretty 1] ;;
          l' <- instrumentStatements l ;;
          alt <- eachAnother (instrumentIfStatementKw (Some "if"))
                   (fun branch =>
                      createMarker CoverageTypeBranch node [pretty branch])
                   (instrumentAlternative node alternative) 1 another ;;
          ret (mkIf (default keyword kw) m cond (mkBlock mb (m1 :: l')) []
                 alt)).
  rewrite !bind_eq, createMarker_eq. simpl. by rewrite app_nil_r.
Qed.

Lemma instrumentIfStatementKw_setKeyword (kw : string) (a : IfStatement) :
  instrumentIfStatementKw (Some kw) a =
    instrumentIfStatement (If_setKeyword a kw).
Proof.
  destruct a as [keyword m cond [mb l] another alternative].
  unfold instrumentIfStatement. cbn [If_setKeyword].
  by rewrite !instrumentIfStatementKw_eq.
Qed.

(** *** Registration calls name nodes of the instrumented tree *)

Lemma list_sum_cons (x : nat) (l : list nat) :
  list_sum (x :: l) = (x + list_sum l)%nat.
Proof. reflexivity. Qed.

Lemma within_mono (n n' : nat) (calls : list Setup) :
  (n <= n')%nat -> within n calls -> within n' calls.
Proof.
  intros Hn H. eapply Forall_impl; [exact H |]. intros c Hc. simpl in *. lia.
Qed.

Lemma within_app (n : nat) (l1 l2 : list Setup) :
  within n l1 -> within n l2 -> within n (l1 ++ l2).
Proof. intros H1 H2. by apply Forall_app. Qed.

Lemma within_cons (n : nat) (c : Setup) (l : list Setup) :
  (Node_size (Setup_node c) <= n)%nat -> within n l -> within n (c :: l).
Proof. intros H1 H2. by apply Forall_cons_2. Qed.

Lemma within_synthetic (n : nat) (es : list Expression) :
  within n (syntheticCallsOf es).
Proof.
  eapply Forall_impl; [apply syntheticCallsOf_branch |].
  intros c [_ [e He]]. simpl. rewrite He. simpl. lia.
Qed.

Lemma within_ne (n : nat) (node : Node) (calls : list Setup) :
  (n < Node_size node)%nat -> within n calls ->
  Forall (fun c => Setup_node c ≠ node) calls.
Proof.
  intros Hn H. eapply Forall_impl; [exact H |]. intros c Hc Heq.
  simpl in Hc. rewrite Heq in Hc. lia.
Qed.

Lemma within_statements (l : list Statement) :
  Forall
    (fun s => within (Statement_size s) (instrumentStatement s).2) l ->
  within (Statements_size l) (instrumentStatements l).2.
Proof.
  unfold Statements_size.
  induction 1 as [|s l Hs _ IH]; [constructor |].
  rewrite instrumentStatements_cons. cbn [snd map].
  rewrite list_sum_cons.
  apply within_app; (eapply within_mono; [|eassumption]); lia.
Qed.

Lemma within_cases (stmt : Statement) (n : nat) (branch : Z)
    (cases : list CaseStatement) :
  Forall
    (fun c =>
       Forall
         (fun s => within (Statement_size s) (instrumentStatement s).2)
         (Case_Statements c))
    cases ->
  (Statement_size stmt <= n)%nat ->
  (list_sum (map (fun c => Statements_size (Case_Statements c)) cases) <= n)%nat ->
  within n (eachCase (instrumentCase stmt) branch cases).2.
Proof.
  intros Hall Hstmt. revert branch.
  induction Hall as [|c cases Hc _ IH]; intros branch Hsum; [constructor |].
  rewrite eachCase_cons, instrumentCase_eq. cbn [snd].
  cbn [map] in Hsum. rewrite list_sum_cons in Hsum.
  apply within_app; [|apply IH; lia].
  apply within_cons; [simpl; lia |].
  apply within_cons; [simpl; lia |].
  eapply within_mono; [|by apply within_statements]. lia.
Qed.

Lemma within_another (node : Node) (alternative : option ElseStatement)
    (n : nat) (branch : Z) (another : list IfStatement) :
  Forall
    (fun a =>
       forall kw, within (S (If_size a)) (instrumentIfStatementKw kw a).2)
    another ->
  match alternative with
  | Some e =>
      Forall (fun s => within (Statement_size s) (instrumentStatement s).2)
        (Block_Statements (Else_Consequence e))
  | None => True
  end ->
  (Node_size node <= n)%nat ->
  (list_sum (map (fun a => S (If_size a)) another) +
   match alternative with
   | Some e => Statements_size (Block_Statements (Else_Consequence e))
   | None => 0
   end <= n)%nat ->
  within n
    (eachAnother (instrumentIfStatementKw (Some "if"))
       (fun branch => createMarker CoverageTypeBranch node [pretty branch])
       (instrumentAlternative node alternative) branch another).2.
Proof.
  intros Hall Halt Hnode. revert branch.
  induction Hall as [|a another Ha _ IH]; intros branch Hsum.
  - rewrite eachAnother_nil.
    destruct alternative as [[me [meb le]]|]; [|constructor].
    rewrite instrumentAlternative_some. cbn [snd].
    apply within_cons; [by simpl |].
    eapply within_mono; [|by apply within_statements].
    cbn [Else_Consequence Block_Statements] in Hsum. lia.
  - rewrite eachAnother_cons, createMarker_eq. cbn [snd].
    cbn [map] in Hsum. rewrite list_sum_cons in Hsum.
    apply within_app; [eapply within_mono; [|apply Ha]; lia |].
    apply within_cons; [by simpl |]. apply IH. lia.
Qed.

Lemma Statement_size_switch (m : Meta) (control : Expression)
    (cases : list CaseStatement) :
  Statement_size (SwitchStatement m control cases) =
    S (list_sum (map (fun c => Statements_size (Case_Statements c)) cases)).
Proof.
  cbn [Statement_size]. do 2 f_equal. apply map_ext. by intros [mc test l].
Qed.

Lemma If_size_eq (kw : string) (m : Meta) (cond : Expression) (mb : Meta)
    (l : list Statement) (another : list IfStatement)
    (alternative : option ElseStatement) :
  If_size (mkIf kw m cond (mkBlock mb l) another alternative) =
    (Statements_size l + list_sum (map (fun a => S (If_size a)) another) +
     match alternative with
     | Some e => Statements_size (Block_Statements (Else_Consequence e))
     | None => 0
     end)%nat.
Proof. by destruct alternative as [[me [meb le]]|]. Qed.

Lemma within_statement_and_if :
  (forall s, within (Statement_size s) (instrumentStatement s).2) /\
  (forall i kw, within (S (If_size i)) (instrumentIfStatementKw kw i).2).
Proof.
  set (P := fun s => within (Statement_size s) (instrumentStatement s).2).
  set (Q := fun i =>
              forall kw,
                within (S (If_size i)) (instrumentIfStatementKw kw i).2).
  assert (Hblock : forall m l, Forall P l -> P (BlockStmt (mkBlock m l))).
  { intros m l Hl. unfold P. rewrite instrumentStatement_block. cbn [snd].
    eapply within_mono; [|by apply within_statements].
    cbn [Statement_size]. unfold Statements_size. lia. }
  assert (HifStmt : forall i, Q i -> P (IfStmt i)).
  { intros i Hi. unfold P. rewrite instrumentStatement_if. cbn [snd].
    apply within_cons; [by simpl |]. apply Hi. }
  assert (Hswitch : forall m control cases,
            Forall (fun c => Forall P (Case_Statements c)) cases ->
            P (SwitchStatement m control cases)).
  { intros m control cases Hc. unfold P.
    rewrite instrumentStatement_switch. cbn [snd].
    apply within_cons; [by simpl |].
    apply within_cases; [exact Hc | lia |].
    rewrite Statement_size_switch. lia. }
  assert (Hleaf : forall s, leaf s -> P s).
  { intros s Hs. unfold P. rewrite instrumentStatement_leaf_eq by done.
    cbn [snd]. apply within_app; [|apply within_synthetic].
    destruct s; try done; repeat constructor. }
  assert (Hif : forall kw m cond mb l another alternative,
            Forall P l -> Forall Q another ->
            match alternative with
            | Some e => Forall P (Block_Statements (Else_Consequence e))
            | None => True
            end ->
            Q (mkIf kw m cond (mkBlock mb l) another alternative)).
  { intros kw m cond mb l another alternative Hl Ha Halt kw0.
    rewrite instrumentIfStatementKw_eq. cbv zeta. cbn [snd].
    rewrite If_size_eq.
    assert (Hnode :
              Node_size
                (StatementNode
                   (IfStmt
                      (mkIf (default kw kw0) m cond (mkBlock mb l) another
                         alternative))) =
                S (Statements_size l +
                   list_sum (map (fun a => S (If_size a)) another) +
                   match alternative with
                   | Some e =>
                       Statements_size (Block_Statements (Else_Consequence e))
                   | None => 0
                   end)).
    { cbn [Node_size Statement_size]. by rewrite If_size_eq. }
    apply within_cons; [cbn [Setup_node]; lia |].
    apply within_app.
    - eapply within_mono; [|by apply within_statements]. lia.
    - apply within_another; [exact Ha | exact Halt | lia | lia]. }
  split.
  - exact (Statement_induction P Q Hblock HifStmt Hswitch Hleaf Hif).
  - exact (If_induction P Q Hblock HifStmt Hswitch Hleaf Hif).
Qed.

Lemma within_instrumentStatements (l : list Statement) :
  within (Statements_size l) (instrumentStatements l).2.
Proof.
  apply within_statements, Forall_forall. intros s _.
  apply within_statement_and_if.
Qed.

Lemma within_instrumentIfStatement (i : IfStatement) :
  within (S (If_size i)) (instrumentIfStatement i).2.
Proof. apply within_statement_and_if. Qed.

Lemma list_sum_elem {A : Type} (f : A -> nat) (x : A) (l : list A) :
  x ∈ l -> (f x <= list_sum (map f l))%nat.
Proof.
  induction 1 as [x l|x y l _ IH]; cbn [map]; rewrite list_sum_cons; lia.
Qed.

(** C3: [instrumentSwitchStatement] leaves one case per case of the
    switch statement, in source order; the statements of case number [k]
    (from 1, the default case counted where it stands) are the branch
    marker of the switch statement with suffix [k], the branch marker of
    the case itself without suffix, then the instrumented statements of
    the case.  The registration calls are those two per case, in the same
    order, each pair followed by the calls of the case's statements, none
    of which names the switch statement. *)
Theorem instrumentSwitchStatement_pairs (m : Meta) (control : Expression)
    (cases : list CaseStatement) :
  let stmt := SwitchStatement m control cases in
  (instrumentSwitchStatement stmt cases).1 =
    imap
      (fun k c =>
         mkCase (Case_GetMeta c) (Case_Test c)
           (marker CoverageTypeBranch (StatementNode stmt)
              [pretty (Z.of_nat k + 1)] ::
            marker CoverageTypeBranch (CaseNode c) [] ::
            (instrumentStatements (Case_Statements c)).1))
      cases /\
  (instrumentSwitchStatement stmt cases).2 =
    concat
      (imap
         (fun k c =>
            SetupBranch
              (markerId CoverageTypeBranch (StatementNode stmt)
                 [pretty (Z.of_nat k + 1)])
              (StatementNode stmt) ::
            SetupBranch (markerId CoverageTypeBranch (CaseNode c) [])
              (CaseNode c) ::
            (instrumentStatements (Case_Statements c)).2)
         cases) /\
  length (instrumentSwitchStatement stmt cases).1 = length cases /\
  Forall
    (fun c =>
       Forall (fun call => Setup_node call ≠ StatementNode stmt)
         (instrumentStatements (Case_Statements c)).2)
    cases /\
  after stmt = SwitchStatement m control (instrumentSwitchStatement stmt cases).1.
Proof.
  intros stmt. unfold instrumentSwitchStatement. rewrite eachCase_eq.
  cbn [fst snd].
  split; [|split; [|split; [|split]]].
  - apply imap_ext. intros k c _. rewrite instrumentCase_eq. cbn [fst].
    by rewrite (Z.add_comm 1).
  - f_equal. apply imap_ext. intros k c _. rewrite instrumentCase_eq.
    cbn [snd]. by rewrite (Z.add_comm 1).
  - apply length_imap.
  - apply Forall_forall. intros c Hc.
    eapply within_ne; [|apply within_instrumentStatements].
    subst stmt. cbn [Node_size]. rewrite Statement_size_switch.
    pose proof (list_sum_elem
                  (fun c => Statements_size (Case_Statements c)) c cases Hc).
    simpl in *. lia.
  - unfold after. subst stmt. rewrite instrumentStatement_switch.
    cbn [fst snd]. unfold instrumentSwitchStatement.
    by rewrite eachCase_eq.
Qed.

End branching.

(** ** Identifiers and the registry *)

Section registry.
Context {stringer : CoverageTypeStringer} {null : NullToken}.

Lemma register_cons (s : Setup) (calls : list Setup) (c : Coverage) :
  register (s :: calls) c = register calls (call s c).
Proof. reflexivity. Qed.

Lemma identifiers_cons (k : CoverageType) (s : Setup) (calls : list Setup) :
  identifiers k (s :: calls) =
    (if decide (Setup_kind s = k) then {[Setup_id s]} else ∅) ∪
    identifiers k calls.
Proof.
  unfold identifiers. rewrite filter_cons.
  case_decide; cbn [map list_to_set]; set_solver.
Qed.

Lemma dom_bucket_call (k : CoverageType) (s : Setup) (c : Coverage) :
  dom (bucket k (call s c)) =
    (if decide (Setup_kind s = k) then {[Setup_id s]} else ∅) ∪
    dom (bucket k c).
Proof.
  destruct s as [id n|id n|id n], k; cbn [call bucket Setup_kind Setup_id];
    case_decide; try done; rewrite ?dom_insert_L; set_solver.
Qed.

Lemma dom_register (k : CoverageType) (calls : list Setup) (c : Coverage) :
  dom (bucket k (register calls c)) =
    dom (bucket k c) ∪ identifiers k calls.
Proof.
  revert c. induction calls as [|s calls IH]; intros c.
  - unfold identifiers. cbn [register foldl]. set_solver.
  - rewrite register_cons, IH, dom_bucket_call, identifiers_cons.
    set_solver.
Qed.

(** C7: the identifier of a marker is
    [<kind-prefix>_<line>_<column>], with [_] and the suffix parts joined
    by [_] appended when a suffix is given; it is computed from the kind,
    the line and column of the node's token and the suffix alone.  The
    identifiers a run of the pass registers are those of the calls
    [instrument] makes, which depend on the source tree only: whatever the
    registry holds before, the run adds exactly that set to each bucket,
    and a second run over the same source adds no new identifier. *)
Theorem marker_identifier_deterministic (t : CoverageType) (node : Node)
    (suffix : list string) (vcl : VCL) (c : Coverage) (k : CoverageType) :
  let line := Line (Token (GetMeta node)) in
  let column := Position (Token (GetMeta node)) in
  createMarker t node suffix =
    (FunctionCallStatement fake
       (mkIdent
          (mkMeta
             (literalToken STRING ("coverage." +:+ CoverageType_String t)))
          ("coverage." +:+ CoverageType_String t))
       [String
          (mkMeta (literalToken STRING (identifier t line column suffix)))
          (identifier t line column suffix)],
     [setupCall t (identifier t line column suffix) node]) /\
  identifier t line column suffix =
    kindPrefix t +:+ "_" +:+ pretty line +:+ "_" +:+ pretty column +:+
    (if decide (suffix = []) then "" else "_" +:+ String.concat "_" suffix) /\
  (kindPrefix t = "sub" \/ kindPrefix t = "stmt" \/ kindPrefix t = "branch") /\
  dom (bucket k (register (instrument vcl).2 c)) =
    dom (bucket k c) ∪ identifiers k (instrument vcl).2 /\
  dom (bucket k (register (instrument vcl).2 (register (instrument vcl).2 c))) =
    dom (bucket k (register (instrument vcl).2 c)).
Proof.
  intros line column. split; [apply createMarker_eq |].
  split; [reflexivity |]. split; [destruct t; auto |].
  split; [apply dom_register |].
  rewrite !dom_register. set_solver.
Qed.

End registry.

(** The concrete inputs use the example parameters. *)
#[local] Existing Instance exampleStringer.
#[local] Existing Instance exampleNull.



(** C5, as stated, fails on a block: [{ esi; }] comes back as
    [{ coverage.statement("stmt_3_5"); esi; }], although it is neither a
    conditional nor a switch statement. *)
Lemma block_statement_not_retained :
  ~ retainedUnlessBranching (stringer := exampleStringer)
      (null := exampleNull) [esiBlock].
Proof.
  intros Hclaim.
  destruct (Hclaim esiBlock) as [[i Hi]|[(m & control & cases & Hs)|Hin]].
  - apply list_elem_of_singleton. reflexivity.
  - discriminate Hi.
  - discriminate Hs.
  - apply list_elem_of_singleton in Hin. discriminate Hin.
Qed.

(** The chain of C1 on a concrete input: the four markers of the
    statement on line 10, and the marker each else-if clause gets as a
    conditional statement of its own. *)
Example sampleChain_identifiers :
  map Setup_id (instrumentIfStatement sampleChain).2 =
    ["branch_10_3_1"; "branch_12_3_1"; "branch_10_3_2"; "branch_14_3_1";
     "branch_10_3_3"; "branch_10_3_4"].
Proof. vm_compute. reflexivity. Qed.

Example sampleChain_nodes :
  map (fun c => bool_decide (Line (Token (GetMeta (Setup_node c))) = 10))
    (instrumentIfStatement sampleChain).2 =
    [true; false; true; false; true; true].
Proof. vm_compute. reflexivity. Qed.

Example sampleSwitch_identifiers :
  map Setup_id (instrumentStatement sampleSwitch).2 =
    ["stmt_20_3"; "branch_20_3_1"; "branch_21_3"; "stmt_22_5";
     "branch_20_3_2"; "branch_23_3"; "stmt_24_5"].
Proof. vm_compute. reflexivity. Qed.

Example sampleCall_identifiers :
  map Setup_id (instrumentStatement sampleCall).2 =
    ["branch_30_8_true"; "branch_30_8_false"] /\
  length (before sampleCall) = 1%nat /\
  after sampleCall = sampleCall.
Proof. vm_compute. auto. Qed.

Example sampleVCL_identifiers :
  map Setup_id (instrument sampleVCL).2 = ["sub_2_1"; "stmt_3_5"] /\
  identifiers CoverageTypeSubroutine (instrument sampleVCL).2 = {["sub_2_1"]}.
Proof.
  split; [vm_compute; reflexivity |]. unfold identifiers.
  assert (Hsub :
            map Setup_id
              (filter (fun s => Setup_kind s = CoverageTypeSubroutine)
                 (instrument sampleVCL).2) = ["sub_2_1"])
    by (vm_compute; reflexivity).
  rewrite Hsub. cbn [list_to_set]. set_solver.
Qed.

Example setNested_identifiers :
  map Setup_id (instrumentStatement setNested).2 =
    ["stmt_3_3"; "branch_3_22_true"; "branch_3_22_false"].
Proof. vm_compute. reflexivity. Qed.

End instrument_spec.

(** * Properties of [testing.fixed_time] *)

Module fixed_time_spec.

Import value context errors function.

Section fixed_time.
Context `{ValueImports}.

Lemma Validate_one (v : Value) : Testing_fixed_time_Validate [v] = None.
Proof. unfold Testing_fixed_time_Validate. by case_decide. Qed.

Lemma Validate_other (args : list Value) :
  length args ≠ 1%nat -> is_Some (Testing_fixed_time_Validate args).
Proof. intros Hn. unfold Testing_fixed_time_Validate. by case_decide. Qed.

Lemma rejected_one (v : Value) :
  rejected [v] <-> fixedClock v = None.
Proof.
  unfold rejected. split.
  - intros [Hlen|(v' & [= <-] & [Hty|(fixed & err & -> & Hparse)])].
    + done.
    + destruct v as [n|t|fixed|name]; cbn [Type_of] in Hty;
        try (exfalso; apply Hty; set_solver); reflexivity.
    + cbn [fixedClock]. by rewrite Hparse.
  - intros Hclock. right. exists v. split; [done |].
    destruct v as [n|t|fixed|name]; try discriminate Hclock.
    + right. cbn [fixedClock] in Hclock.
      destruct (time_Parse "2006-01-02 15:04:05" fixed) as [t|err] eqn:Hp;
        [discriminate Hclock | by exists fixed, err].
    + left. cbn [Type_of]. set_solver.
Qed.

(** C10: [testing.fixed_time] either refuses its arguments or installs a
    clock.  It refuses them, returning a [TestingError] and leaving the
    context as it is, exactly when the list does not hold exactly one
    value, or the value is not an [INTEGER], a [TIME] or a [STRING], or it
    is a [STRING] that does not parse with the layout
    ["2006-01-02 15:04:05"]; in every other case it returns [Null] without
    an error and the context holds the clock the value stands for. *)
Theorem Testing_fixed_time_refuses_or_installs (ctx : Context)
    (args : list Value) :
  (rejected args /\
   is_Some (Testing_fixed_time ctx args).2.2 /\
   (Testing_fixed_time ctx args).1 = ctx) \/
  (~ rejected args /\
   (Testing_fixed_time ctx args).2 = (Some value_Null, None) /\
   exists v t,
     args = [v] /\ fixedClock v = Some t /\
     (Testing_fixed_time ctx args).1 = mkContext (Some t)).
Proof.
  destruct (decide (length args = 1%nat)) as [Hlen|Hlen].
  - destruct args as [|v [|v' args]]; try discriminate Hlen.
    unfold Testing_fixed_time. rewrite Validate_one.
    pose proof (rejected_one v) as Hrej.
    destruct v as [n|t|fixed|name]; cbn [fixedClock] in Hrej.
    + right. split; [rewrite Hrej; discriminate |].
      split; [reflexivity |]. by eexists _, _.
    + right. split; [rewrite Hrej; discriminate |].
      split; [reflexivity |]. by eexists _, _.
    + change expectedTimeFormat with "2006-01-02 15:04:05".
      destruct (time_Parse "2006-01-02 15:04:05" fixed) as [t|err] eqn:Hp.
      * right. split; [rewrite Hrej; discriminate |].
        split; [reflexivity |]. eexists _, _.
        split; [reflexivity |]. cbn [fixedClock]. by rewrite Hp.
      * left. split; [by apply Hrej |]. split; [by eexists | reflexivity].
    + left. split; [by apply Hrej |]. split; [by eexists | reflexivity].
  - left. split; [by left |].
    unfold Testing_fixed_time.
    destruct (Validate_other args Hlen) as [err ->].
    split; [by eexists | reflexivity].
Qed.

End fixed_time.

End fixed_time_spec.

(** * Further properties of the instrumentation pass *)

Module coverage_spec.

Import token ast shared interpreter instrument_spec.

(** ** Identifiers tell positions apart *)

Lemma append_cons (a : Ascii.ascii) (s r : string) :
  String.String a s +:+ r = String.String a (s +:+ r).
Proof. reflexivity. Qed.

Lemma append_nil (r : string) : "" +:+ r = r.
Proof. reflexivity. Qed.

Lemma underscoreFree_split (s1 s2 r1 r2 : string) :
  underscoreFree s1 -> underscoreFree s2 -> boundary r1 -> boundary r2 ->
  s1 +:+ r1 = s2 +:+ r2 -> s1 = s2 /\ r1 = r2.
Proof.
  revert s2. induction s1 as [|a s1 IH]; intros [|b s2] H1 H2 B1 B2 Heq.
  - by rewrite !append_nil in Heq.
  - rewrite append_nil, append_cons in Heq. destruct H2 as [Hb _].
    destruct B1 as [->|[r' ->]]; [discriminate Heq |].
    injection Heq as Hab _. by destruct Hb.
  - rewrite append_nil, append_cons in Heq. destruct H1 as [Ha _].
    destruct B2 as [->|[r' ->]]; [discriminate Heq |].
    injection Heq as Hab _. by destruct Ha.
  - rewrite !append_cons in Heq. injection Heq as -> Heq.
    destruct H1 as [_ H1], H2 as [_ H2].
    destruct (IH s2 H1 H2 B1 B2 Heq) as [-> ->]. done.
Qed.

Lemma pretty_N_char_free (x : N) : pretty_N_char x ≠ Ascii.ascii_of_nat 95.
Proof. unfold pretty_N_char. by repeat case_match. Qed.

Lemma pretty_N_go_free (x : N) (s : string) :
  underscoreFree s -> underscoreFree (pretty_N_go x s).
Proof.
  revert s. induction (N.lt_wf_0 x) as [x _ IH]; intros s Hs.
  assert (x = 0 \/ 0 < x)%N as [->|Hx] by lia.
  - by rewrite pretty_N_go_0.
  - rewrite pretty_N_go_step by done. apply IH.
    + by apply N.div_lt.
    + split; [apply pretty_N_char_free | exact Hs].
Qed.

Lemma pretty_N_free (x : N) : underscoreFree (pretty x).
Proof.
  unfold pretty, pretty_N. case_decide; [by repeat split |].
  by apply pretty_N_go_free.
Qed.

Lemma pretty_Z_free (x : Z) : underscoreFree (pretty x).
Proof.
  destruct x as [|p|p]; unfold pretty, pretty_Z.
  - by repeat split.
  - apply pretty_N_free.
  - change ("-" +:+ pretty p)
      with (String.String (Ascii.ascii_of_nat 45) (pretty p)).
    split; [discriminate | apply pretty_N_free].
Qed.

Lemma kindPrefix_free (t : CoverageType) : underscoreFree (kindPrefix t).
Proof. destruct t; cbn; repeat split; discriminate. Qed.

Lemma kindPrefix_inj (t t' : CoverageType) :
  kindPrefix t = kindPrefix t' -> t = t'.
Proof. by destruct t, t'. Qed.

Lemma suffixText_boundary (suffix : list string) :
  boundary (suffixText suffix).
Proof.
  unfold suffixText. case_decide; [by left |]. right. by eexists.
Qed.

Lemma suffixText_inj (suffix suffix' : list string) :
  suffixText suffix = suffixText suffix' ->
  (suffix = [] <-> suffix' = []) /\
  String.concat "_" suffix = String.concat "_" suffix'.
Proof.
  unfold suffixText. repeat case_decide; subst; intros Heq; try done.
  split; [done |].
  change ("_" +:+ String.concat "_" suffix)
    with (String.String (Ascii.ascii_of_nat 95) (String.concat "_" suffix))
    in Heq.
  change ("_" +:+ String.concat "_" suffix')
    with (String.String (Ascii.ascii_of_nat 95) (String.concat "_" suffix'))
    in Heq.
  by injection Heq.
Qed.

Lemma identifier_inj (t t' : CoverageType) (l l' c c' : Z)
    (suffix suffix' : list string) :
  identifier t l c suffix = identifier t' l' c' suffix' ->
  t = t' /\ l = l' /\ c = c' /\ suffixText suffix = suffixText suffix'.
Proof.
  unfold identifier. fold (suffixText suffix). fold (suffixText suffix').
  intros Heq.
  apply underscoreFree_split in Heq as [Ht Heq];
    [|apply kindPrefix_free|apply kindPrefix_free|right; by eexists
     |right; by eexists].
  apply kindPrefix_inj in Ht as <-.
  injection Heq as Heq. rewrite !append_nil in Heq.
  apply underscoreFree_split in Heq as [Hl Heq];
    [|apply pretty_Z_free|apply pretty_Z_free|right; by eexists
     |right; by eexists].
  apply (inj pretty) in Hl as <-.
  injection Heq as Heq. rewrite !append_nil in Heq.
  apply underscoreFree_split in Heq as [Hc Heq];
    [|apply pretty_Z_free|apply pretty_Z_free|apply suffixText_boundary
     |apply suffixText_boundary].
  apply (inj pretty) in Hc as <-. done.
Qed.

Section factory.
Context {stringer : CoverageTypeStringer} {null : NullToken}.

(** X1: markers with the same identifier have the same kind, stand at the
    same line and column, and have the same suffix text: the identifier
    [createMarker] registers determines the kind prefix, the line, the
    column, whether a suffix was given, and the joined suffix. *)
Theorem createMarker_identifier_injective (t t' : CoverageType)
    (node node' : Node) (suffix suffix' : list string) :
  map Setup_id (createMarker t node suffix).2 =
    map Setup_id (createMarker t' node' suffix').2 ->
  t = t' /\
  Line (Token (GetMeta node)) = Line (Token (GetMeta node')) /\
  Position (Token (GetMeta node)) = Position (Token (GetMeta node')) /\
  (suffix = [] <-> suffix' = []) /\
  String.concat "_" suffix = String.concat "_" suffix'.
Proof.
  rewrite !createMarker_snd. cbn [map]. intros [= Heq].
  assert (Hid : markerId t node suffix = markerId t' node' suffix')
    by (by destruct t, t').
  apply identifier_inj in Hid as (Ht & Hl & Hc & Hs).
  apply suffixText_inj in Hs. tauto.
Qed.

(** X2: the statements [instrumentStatement] puts before a statement are
    its statement marker, which every statement but a block and a
    function-call statement gets, followed by the conditionals generated
    for the inline conditionals reached from its operands, in operand
    order (code before argument for an error statement); conditional and
    switch statements get the marker only. *)
Theorem instrumentStatement_marker_then_conditionals (s : Statement) :
  before s = statementMarker s ++ syntheticConditionals (operands s).
Proof.
  destruct s as [[m l]|i|m control cases| | | | | | | | |]; unfold before;
    try (by rewrite instrumentStatement_leaf_eq).
  - by rewrite instrumentStatement_block.
  - by rewrite instrumentStatement_if.
  - by rewrite instrumentStatement_switch.
Qed.

(** X3: instrumenting a list of statements is local to each statement:
    the instrumented concatenation of two lists is the concatenation of
    the instrumented lists, and so are the registration calls. *)
Theorem instrumentStatements_concatenation (l1 l2 : list Statement) :
  (instrumentStatements (l1 ++ l2)).1 =
    (instrumentStatements l1).1 ++ (instrumentStatements l2).1 /\
  (instrumentStatements (l1 ++ l2)).2 =
    (instrumentStatements l1).2 ++ (instrumentStatements l2).2.
Proof. by rewrite instrumentStatements_app. Qed.

End factory.

(** ** Conditional chains of any length *)

Section chain.
Context {stringer : CoverageTypeStringer} {null : NullToken}.

Lemma eachAnother_calls (instrumentIf : IfStatement -> W IfStatement)
    (mk : Z -> W Statement) (trailing : Z -> W (option ElseStatement))
    (branch : Z) (another : list IfStatement) :
  (eachAnother instrumentIf mk trailing branch another).2 =
    concat
      (imap
         (fun j a => (instrumentIf a).2 ++ (mk (branch + Z.of_nat j + 1)).2)
         another) ++
    (trailing (branch + Z.of_nat (length another))).2.
Proof.
  revert branch. induction another as [|a another IH]; intros branch.
  - rewrite eachAnother_nil. cbn [imap concat length app].
    by rewrite Z.add_0_r.
  - rewrite eachAnother_cons. cbn [snd imap concat length].
    rewrite IH, Z.add_0_r, <- !app_assoc. do 2 f_equal.
    f_equal; [|do 2 f_equal; lia].
    f_equal. apply imap_ext. intros j x _. cbn. do 3 f_equal. lia.
Qed.

Lemma eachAnother_none (instrumentIf : IfStatement -> W IfStatement)
    (mk : Z -> W Statement) (node : Node)
    (alternative : option ElseStatement) (branch : Z)
    (another : list IfStatement) :
  (eachAnother instrumentIf mk (instrumentAlternative node alternative)
     branch another).1 = None <->
  another = [] /\ alternative = None.
Proof.
  destruct another as [|a another].
  - rewrite eachAnother_nil.
    destruct alternative as [[me [meb le]]|].
    + rewrite instrumentAlternative_some. cbn [fst]. naive_solver.
    + cbn. naive_solver.
  - rewrite eachAnother_cons. cbn [fst]. naive_solver.
Qed.

Lemma If_size_setKeyword (a : IfStatement) (kw : string) :
  If_size (If_setKeyword a kw) = If_size a.
Proof. by destruct a as [? ? ? [? ?] ? ?]. Qed.

(** X4: for a conditional statement with any number of else-if clauses,
    [instrumentIfStatement] registers branch 1 of the statement, then the
    calls of the consequence, then for the else-if clause number [j]
    (from 0) the calls of that clause, rewritten as a conditional of its
    own, followed by branch [j + 2] of the statement, and last, when there
    is a trailing else, the branch after the last else-if followed by the
    calls of the else consequence.  No call made for a consequence or an
    else-if clause names the statement, so the statement has exactly one
    branch registration per clause, numbered from 1 in source order. *)
Theorem instrumentIfStatement_registrations (kw : string) (m : Meta)
    (cond : Expression) (mb : Meta) (body : list Statement)
    (another : list IfStatement) (alternative : option ElseStatement) :
  let stmt := mkIf kw m cond (mkBlock mb body) another alternative in
  let node := StatementNode (IfStmt stmt) in
  let clause a := (instrumentIfStatement (If_setKeyword a "if")).2 in
  let trailing :=
    match alternative with
    | Some e => (instrumentStatements (Block_Statements (Else_Consequence e))).2
    | None => []
    end in
  (instrumentIfStatement stmt).2 =
    SetupBranch (markerId CoverageTypeBranch node ["1"]) node ::
    (instrumentStatements body).2 ++
    concat
      (imap
         (fun j a =>
            clause a ++
            [SetupBranch
               (markerId CoverageTypeBranch node [pretty (Z.of_nat j + 2)])
               node])
         another) ++
    match alternative with
    | Some e =>
        SetupBranch
          (markerId CoverageTypeBranch node
             [pretty (Z.of_nat (length another) + 2)])
          node :: trailing
    | None => []
    end /\
  Forall (fun c => Setup_node c ≠ node) (instrumentStatements body).2 /\
  Forall (fun a => Forall (fun c => Setup_node c ≠ node) (clause a)) another /\
  Forall (fun c => Setup_node c ≠ node) trailing.
Proof.
  intros stmt node clause trailing.
  assert (Hsize : Node_size node =
            S (Statements_size body +
               list_sum (map (fun a => S (If_size a)) another) +
               match alternative with
               | Some e =>
                   Statements_size (Block_Statements (Else_Consequence e))
               | None => 0
               end)).
  { unfold node, stmt. cbn [Node_size Statement_size].
    by rewrite If_size_eq. }
  split; [|split; [|split]].
  - unfold instrumentIfStatement, stmt.
    rewrite instrumentIfStatementKw_eq. cbv zeta. cbn [default snd].
    rewrite eachAnother_calls. f_equal. f_equal. f_equal.
    + f_equal. apply imap_ext. intros j a _. cbn beta.
      rewrite createMarker_snd, instrumentIfStatementKw_setKeyword.
      unfold clause.
      by replace (1 + Z.of_nat j + 1) with (Z.of_nat j + 2) by lia.
    + destruct alternative as [[me [meb le]]|]; [|reflexivity].
      rewrite instrumentAlternative_some. cbn [snd].
      unfold trailing. cbn [Else_Consequence Block_Statements].
      by replace (1 + Z.of_nat (length another) + 1)
        with (Z.of_nat (length another) + 2) by lia.
  - eapply within_ne; [|apply within_instrumentStatements]. lia.
  - apply Forall_forall. intros a Ha. unfold clause.
    eapply within_ne; [|apply within_instrumentIfStatement].
    rewrite If_size_setKeyword.
    pose proof (list_sum_elem (fun a => S (If_size a)) a another Ha).
    simpl in *. lia.
  - unfold trailing. destruct alternative as [e|]; [|constructor].
    eapply within_ne; [|apply within_instrumentStatements]. lia.
Qed.

(** X5: [instrumentIfStatement] keeps the keyword, the meta and the
    condition of the statement and the meta of its consequence block,
    puts branch marker 1 before the instrumented statements of the
    consequence, empties the list of else-if clauses, and leaves the
    statement without an alternative exactly when it had neither else-if
    clauses nor a trailing else. *)
Theorem instrumentIfStatement_result (kw : string) (m : Meta)
    (cond : Expression) (mb : Meta) (body : list Statement)
    (another : list IfStatement) (alternative : option ElseStatement) :
  let stmt := mkIf kw m cond (mkBlock mb body) another alternative in
  let result := (instrumentIfStatement stmt).1 in
  If_Keyword result = kw /\
  If_GetMeta result = m /\
  If_Condition result = cond /\
  If_Consequence result =
    mkBlock mb
      (marker CoverageTypeBranch (StatementNode (IfStmt stmt)) ["1"] ::
       (instrumentStatements body).1) /\
  If_Another result = [] /\
  (If_Alternative result = None <-> another = [] /\ alternative = None).
Proof.
  intros stmt result. unfold result, instrumentIfStatement, stmt.
  rewrite instrumentIfStatementKw_eq. cbv zeta.
  cbn [default fst If_Keyword If_GetMeta If_Condition If_Consequence
         If_Another If_Alternative].
  repeat (split; [reflexivity |]). apply eachAnother_none.
Qed.

End chain.

(** ** Invariants of the instrumented tree *)

Section invariants.
Context {stringer : CoverageTypeStringer} {null : NullToken}.

Lemma before_flattened (s : Statement) : forallb flattened (before s) = true.
Proof.
  apply forallb_forall. intros x Hx. apply list_elem_of_In in Hx.
  pose proof (before_marker_or_synthetic s) as Hall.
  rewrite Forall_forall in Hall.
  by destruct (Hall x Hx) as [(t & node & suffix & ->)|(e & c & ->)].
Qed.

Lemma flattened_statements (l : list Statement) :
  Forall (fun s => flattened (after s) = true) l ->
  forallb flattened (instrumentStatements l).1 = true.
Proof.
  induction 1 as [|s l Hs _ IH]; [reflexivity |].
  rewrite instrumentStatements_cons. cbn [fst].
  rewrite forallb_app, before_flattened. cbn [forallb].
  by rewrite Hs, IH.
Qed.

Lemma flattened_cases (stmt : Statement) (branch : Z)
    (cases : list CaseStatement) :
  Forall
    (fun c => Forall (fun s => flattened (after s) = true) (Case_Statements c))
    cases ->
  forallb
    (fun c => match c with mkCase _ _ l => forallb flattened l end)
    (eachCase (instrumentCase stmt) branch cases).1 = true.
Proof.
  intros Hall. revert branch.
  induction Hall as [|c cases Hc _ IH]; intros branch; [reflexivity |].
  rewrite eachCase_cons, instrumentCase_eq. cbn [fst forallb].
  rewrite IH, flattened_statements by done. reflexivity.
Qed.

Lemma flattenedIf_attach (a : IfStatement) (e : option ElseStatement) :
  flattenedIf a = true -> flattenedElse e = true ->
  flattenedIf (attach a e) = true.
Proof.
  destruct e as [e|]; [|done]. cbn [attach].
  destruct a as [kw m cond [mb l] another alternative].
  cbn [If_setAlternative flattenedIf flattenedElse].
  intros Ha He. apply andb_true_iff in Ha as [Ha _].
  by rewrite Ha.
Qed.

Lemma flattened_another (node : Node) (alternative : option ElseStatement)
    (branch : Z) (another : list IfStatement) :
  Forall
    (fun a => forall kw, flattenedIf (instrumentIfStatementKw kw a).1 = true)
    another ->
  match alternative with
  | Some e =>
      Forall (fun s => flattened (after s) = true)
        (Block_Statements (Else_Consequence e))
  | None => True
  end ->
  flattenedElse
    (eachAnother (instrumentIfStatementKw (Some "if"))
       (fun branch => createMarker CoverageTypeBranch node [pretty branch])
       (instrumentAlternative node alternative) branch another).1 = true.
Proof.
  intros Hall Halt. revert branch.
  induction Hall as [|a another Ha _ IH]; intros branch.
  - rewrite eachAnother_nil.
    destruct alternative as [[me [meb le]]|]; [|reflexivity].
    rewrite instrumentAlternative_some. cbn [fst flattenedElse forallb].
    by apply flattened_statements.
  - rewrite eachAnother_cons, createMarker_fst.
    cbn [fst flattenedElse forallb flattened].
    rewrite flattenedIf_attach; [reflexivity | apply Ha | apply IH].
Qed.

Lemma flattened_after_and_if :
  (forall s, flattened (after s) = true) /\
  (forall i kw, flattenedIf (instrumentIfStatementKw kw i).1 = true).
Proof.
  set (P := fun s => flattened (after s) = true).
  set (Q := fun i =>
              forall kw, flattenedIf (instrumentIfStatementKw kw i).1 = true).
  assert (Hblock : forall m l, Forall P l -> P (BlockStmt (mkBlock m l))).
  { intros m l Hl. unfold P, after. rewrite instrumentStatement_block.
    cbn [fst snd flattened]. by apply flattened_statements. }
  assert (HifStmt : forall i, Q i -> P (IfStmt i)).
  { intros i Hi. unfold P, after. rewrite instrumentStatement_if.
    cbn [fst snd flattened]. apply Hi. }
  assert (Hswitch : forall m control cases,
            Forall (fun c => Forall P (Case_Statements c)) cases ->
            P (SwitchStatement m control cases)).
  { intros m control cases Hc. unfold P, after.
    rewrite instrumentStatement_switch. cbn [fst snd flattened].
    by apply flattened_cases. }
  assert (Hleaf : forall s, leaf s -> P s).
  { intros s Hs. unfold P. rewrite instrumentStatement_leaf by done.
    by destruct s. }
  assert (Hif : forall kw m cond mb l another alternative,
            Forall P l -> Forall Q another ->
            match alternative with
            | Some e => Forall P (Block_Statements (Else_Consequence e))
            | None => True
            end ->
            Q (mkIf kw m cond (mkBlock mb l) another alternative)).
  { intros kw m cond mb l another alternative Hl Ha Halt kw0.
    rewrite instrumentIfStatementKw_eq. cbv zeta.
    cbn [fst flattenedIf forallb flattened andb].
    rewrite flattened_statements by done. cbn [andb].
    by apply flattened_another. }
  split.
  - exact (Statement_induction P Q Hblock HifStmt Hswitch Hleaf Hif).
  - exact (If_induction P Q Hblock HifStmt Hswitch Hleaf Hif).
Qed.

(** X6: after the pass no conditional statement has else-if clauses left:
    in the list [instrumentStatements] returns, every conditional
    statement, at any depth and the generated ones included, has an empty
    list of else-if clauses, so the rewritten tree holds binary
    conditionals only. *)
Theorem instrumentStatements_flattened (l : list Statement) :
  forallb flattened (instrumentStatements l).1 = true.
Proof.
  apply flattened_statements, Forall_forall. intros s _.
  apply flattened_after_and_if.
Qed.

End invariants.

(** ** How many markers the pass registers *)

Section counting.
Context {stringer : CoverageTypeStringer} {null : NullToken}.

Lemma countKind_nil (k : CoverageType) : countKind k [] = 0%nat.
Proof. reflexivity. Qed.

Lemma countKind_app (k : CoverageType) (l1 l2 : list Setup) :
  countKind k (l1 ++ l2) = (countKind k l1 + countKind k l2)%nat.
Proof. unfold countKind. by rewrite filter_app, length_app. Qed.

Lemma countKind_cons (k : CoverageType) (c : Setup) (l : list Setup) :
  countKind k (c :: l) =
    ((if decide (Setup_kind c = k) then 1 else 0) + countKind k l)%nat.
Proof. unfold countKind. rewrite filter_cons. by case_decide. Qed.

Lemma length_countKind (calls : list Setup) :
  length calls =
    (countKind CoverageTypeSubroutine calls +
     countKind CoverageTypeStatement calls +
     countKind CoverageTypeBranch calls)%nat.
Proof.
  induction calls as [|c calls IH]; [done |].
  rewrite !countKind_cons. cbn [length].
  destruct c; cbn [Setup_kind]; repeat case_decide; try done; lia.
Qed.

Lemma countKind_synthetic (k : CoverageType) (es : list Expression) :
  countKind k (syntheticCallsOf es) =
    match k with
    | CoverageTypeBranch =>
        (2 * length (flat_map reachedConditionals es))%nat
    | _ => 0%nat
    end.
Proof.
  unfold syntheticCallsOf.
  induction (flat_map reachedConditionals es) as [|p ps IH].
  - by destruct k.
  - cbn [flat_map length]. unfold syntheticCalls at 1.
    cbn [app]. rewrite !countKind_cons, IH. cbn [Setup_kind].
    destruct k; repeat case_decide; try done; lia.
Qed.

Lemma countKind_statements (k : CoverageType) (l : list Statement) :
  Forall (fun s => countKind k (instrumentStatement s).2 = points k s) l ->
  countKind k (instrumentStatements l).2 = list_sum (map (points k) l).
Proof.
  induction 1 as [|s l Hs _ IH]; [reflexivity |].
  rewrite instrumentStatements_cons. cbn [snd map].
  by rewrite countKind_app, list_sum_cons, Hs, IH.
Qed.

Lemma list_sum_zero {A : Type} (f : A -> nat) (xs : list A) :
  (forall x, f x = 0%nat) -> list_sum (map f xs) = 0%nat.
Proof.
  intros Hf. induction xs as [|x xs IH]; [done |].
  cbn [map]. by rewrite list_sum_cons, Hf, IH.
Qed.

Lemma list_sum_plus {A : Type} (n : nat) (f : A -> nat) (xs : list A) :
  list_sum (map (fun x => (n + f x)%nat) xs) =
    (length xs * n + list_sum (map f xs))%nat.
Proof.
  induction xs as [|x xs IH]; [done |].
  cbn [map length]. rewrite !list_sum_cons, IH. lia.
Qed.

Lemma points_block (k : CoverageType) (m : Meta) (l : list Statement) :
  points k (BlockStmt (mkBlock m l)) = list_sum (map (points k) l).
Proof.
  destruct k; cbn [points statementPoints branchPoints]; try done.
  by rewrite list_sum_zero.
Qed.

Lemma points_if (k : CoverageType) (i : IfStatement) :
  points k (IfStmt i) =
    ((if decide (k = CoverageTypeStatement) then 1 else 0) + ifPoints k i)%nat.
Proof. by destruct k. Qed.

Lemma points_switch (k : CoverageType) (m : Meta) (control : Expression)
    (cases : list CaseStatement) :
  points k (SwitchStatement m control cases) =
    ((if decide (k = CoverageTypeStatement) then 1 else 0) +
     length cases * (if decide (k = CoverageTypeBranch) then 2 else 0) +
     casesPoints k cases)%nat.
Proof.
  unfold casesPoints.
  destruct k; cbn [points statementPoints branchPoints];
    repeat case_decide; try done.
  - rewrite list_sum_zero; [lia |]. intros c. by apply list_sum_zero.
  - cbn [Nat.add]. rewrite Nat.mul_0_r. cbn [Nat.add]. do 2 f_equal.
    apply map_ext. by intros [mc test l].
  - cbn [Nat.add].
    rewrite <- (list_sum_plus 2
                  (fun c =>
                     list_sum
                       (map (points CoverageTypeBranch) (Case_Statements c)))).
    f_equal. apply map_ext. by intros [mc test l].
Qed.

Lemma ifPoints_eq (k : CoverageType) (kw : string) (m : Meta)
    (cond : Expression) (mb : Meta) (l : list Statement)
    (another : list IfStatement) (alternative : option ElseStatement) :
  ifPoints k (mkIf kw m cond (mkBlock mb l) another alternative) =
    ((if decide (k = CoverageTypeBranch)
      then 1 + length another +
           match alternative with Some _ => 1 | None => 0 end
      else 0) +
     list_sum (map (points k) l) +
     list_sum (map (ifPoints k) another) +
     match alternative with
     | Some e =>
         list_sum (map (points k) (Block_Statements (Else_Consequence e)))
     | None => 0
     end)%nat.
Proof.
  destruct k; cbn [ifPoints ifStatementPoints ifBranchPoints];
    repeat case_decide; try done.
  - rewrite !list_sum_zero by done.
    destruct alternative as [e|]; [|done]. by rewrite list_sum_zero.
  - by destruct alternative as [[me [meb le]]|].
  - change (fun a => S (ifBranchPoints a))
      with (fun a => (1 + ifPoints CoverageTypeBranch a)%nat).
    rewrite list_sum_plus.
    change (points CoverageTypeBranch) with branchPoints.
    destruct alternative as [[me [meb le]]|];
      cbn [Else_Consequence Block_Statements]; lia.
Qed.

Lemma countKind_cases (k : CoverageType) (stmt : Statement) (branch : Z)
    (cases : list CaseStatement) :
  Forall
    (fun c =>
       Forall
         (fun s => countKind k (instrumentStatement s).2 = points k s)
         (Case_Statements c))
    cases ->
  countKind k (eachCase (instrumentCase stmt) branch cases).2 =
    (length cases * (if decide (k = CoverageTypeBranch) then 2 else 0) +
     casesPoints k cases)%nat.
Proof.
  unfold casesPoints. intros Hall. revert branch.
  induction Hall as [|c cases Hc _ IH]; intros branch; [reflexivity |].
  rewrite eachCase_cons, instrumentCase_eq. cbn [snd map length].
  rewrite list_sum_cons, countKind_app, IH, !countKind_cons.
  rewrite countKind_statements by done. cbn [Setup_kind].
  repeat case_decide; try done; lia.
Qed.

Lemma countKind_another (k : CoverageType) (node : Node)
    (alternative : option ElseStatement) (branch : Z)
    (another : list IfStatement) :
  Forall
    (fun a =>
       forall kw, countKind k (instrumentIfStatementKw kw a).2 = ifPoints k a)
    another ->
  match alternative with
  | Some e =>
      Forall (fun s => countKind k (instrumentStatement s).2 = points k s)
        (Block_Statements (Else_Consequence e))
  | None => True
  end ->
  countKind k
    (eachAnother (instrumentIfStatementKw (Some "if"))
       (fun branch => createMarker CoverageTypeBranch node [pretty branch])
       (instrumentAlternative node alternative) branch another).2 =
    ((if decide (k = CoverageTypeBranch)
      then length another + match alternative with Some _ => 1 | None => 0 end
      else 0) +
     list_sum (map (ifPoints k) another) +
     match alternative with
     | Some e =>
         list_sum (map (points k) (Block_Statements (Else_Consequence e)))
     | None => 0
     end)%nat.
Proof.
  intros Hall Halt. revert branch.
  induction Hall as [|a another Ha _ IH]; intros branch.
  - rewrite eachAnother_nil.
    destruct alternative as [[me [meb le]]|];
      [|by cbn; case_decide].
    rewrite instrumentAlternative_some.
    cbn [snd map length Else_Consequence Block_Statements] in *.
    rewrite countKind_cons, countKind_statements by done.
    cbn [Setup_kind]. repeat case_decide; try done; simpl; lia.
  - rewrite eachAnother_cons, createMarker_snd.
    cbn [snd map app setupCall length].
    rewrite list_sum_cons, countKind_app, countKind_cons, IH, Ha.
    cbn [Setup_kind]. repeat case_decide; try done; lia.
Qed.

Lemma countKind_statement_and_if (k : CoverageType) :
  (forall s, countKind k (instrumentStatement s).2 = points k s) /\
  (forall i kw, countKind k (instrumentIfStatementKw kw i).2 = ifPoints k i).
Proof.
  set (P := fun s => countKind k (instrumentStatement s).2 = points k s).
  set (Q := fun i =>
              forall kw,
                countKind k (instrumentIfStatementKw kw i).2 = ifPoints k i).
  assert (Hblock : forall m l, Forall P l -> P (BlockStmt (mkBlock m l))).
  { intros m l Hl. unfold P. rewrite instrumentStatement_block, points_block.
    cbn [snd]. by apply countKind_statements. }
  assert (HifStmt : forall i, Q i -> P (IfStmt i)).
  { intros i Hi. unfold P. rewrite instrumentStatement_if, points_if.
    cbn [snd]. unfold instrumentIfStatement.
    rewrite countKind_cons, (Hi None). cbn [Setup_kind].
    repeat case_decide; try done. }
  assert (Hswitch : forall m control cases,
            Forall (fun c => Forall P (Case_Statements c)) cases ->
            P (SwitchStatement m control cases)).
  { intros m control cases Hc. unfold P.
    rewrite instrumentStatement_switch, points_switch. cbn [snd].
    unfold instrumentSwitchStatement.
    rewrite countKind_cons, countKind_cases by done. cbn [Setup_kind].
    repeat case_decide; try done; lia. }
  assert (Hleaf : forall s, leaf s -> P s).
  { intros s Hs. unfold P. rewrite instrumentStatement_leaf_eq by done.
    cbn [snd]. rewrite countKind_app, countKind_synthetic.
    destruct s; try done; destruct k;
      cbn [statementCalls points statementPoints branchPoints operands];
      rewrite ?countKind_cons, ?countKind_nil; cbn [Setup_kind];
      repeat case_decide; try done; lia. }
  assert (Hif : forall kw m cond mb l another alternative,
            Forall P l -> Forall Q another ->
            match alternative with
            | Some e => Forall P (Block_Statements (Else_Consequence e))
            | None => True
            end ->
            Q (mkIf kw m cond (mkBlock mb l) another alternative)).
  { intros kw m cond mb l another alternative Hl Ha Halt kw0.
    rewrite instrumentIfStatementKw_eq, ifPoints_eq. cbv zeta. cbn [snd].
    rewrite countKind_cons, countKind_app, countKind_another by done.
    rewrite countKind_statements by done. cbn [Setup_kind].
    repeat case_decide; try done; lia. }
  split.
  - exact (Statement_induction P Q Hblock HifStmt Hswitch Hleaf Hif).
  - exact (If_induction P Q Hblock HifStmt Hswitch Hleaf Hif).
Qed.

(** X7: [instrumentStatements] makes exactly one statement registration
    for every statement of the list, at any depth, that is neither a
    block nor a function-call statement, no subroutine registration, and
    as many branch registrations as there are clauses of conditional
    statements (each else-if clause counting twice), cases of switch
    statements (twice each) and inline conditionals reached from operands
    (twice each). *)
Theorem instrumentStatements_registration_counts (l : list Statement) :
  countKind CoverageTypeStatement (instrumentStatements l).2 =
    list_sum (map statementPoints l) /\
  countKind CoverageTypeBranch (instrumentStatements l).2 =
    list_sum (map branchPoints l) /\
  countKind CoverageTypeSubroutine (instrumentStatements l).2 = 0%nat /\
  length (instrumentStatements l).2 =
    (list_sum (map statementPoints l) + list_sum (map branchPoints l))%nat.
Proof.
  assert (Hk : forall k,
            countKind k (instrumentStatements l).2 =
              list_sum (map (points k) l)).
  { intros k. apply countKind_statements, Forall_forall. intros s _.
    apply countKind_statement_and_if. }
  assert (Hs : countKind CoverageTypeStatement (instrumentStatements l).2 =
                 list_sum (map statementPoints l))
    by exact (Hk CoverageTypeStatement).
  assert (Hb : countKind CoverageTypeBranch (instrumentStatements l).2 =
                 list_sum (map branchPoints l))
    by exact (Hk CoverageTypeBranch).
  pose proof (Hk CoverageTypeSubroutine) as Hz.
  rewrite list_sum_zero in Hz by done.
  split; [exact Hs |]. split; [exact Hb |]. split; [exact Hz |].
  rewrite (length_countKind (instrumentStatements l).2). lia.
Qed.

End counting.

(** ** The whole program *)

Section program.
Context {stringer : CoverageTypeStringer} {null : NullToken}.

Lemma instrumentSubroutine_eq (sub : SubroutineDeclaration) :
  instrumentSubroutine sub =
    (mkSub (Sub_Meta sub) (Sub_Name sub)
       (Block_setStatements (Sub_Block sub)
          (marker CoverageTypeSubroutine (SubroutineNode sub) [] ::
           (instrumentStatements (Block_Statements (Sub_Block sub))).1)),
     SetupSubroutine (markerId CoverageTypeSubroutine (SubroutineNode sub) [])
       (SubroutineNode sub) ::
     (instrumentStatements (Block_Statements (Sub_Block sub))).2).
Proof.
  unfold instrumentSubroutine. rewrite !bind_eq, createMarker_eq. simpl.
  by rewrite app_nil_r.
Qed.

Lemma instrumentDeclarations_cons (v : Declaration) (vs : list Declaration) :
  instrumentDeclarations (v :: vs) =
    ((instrumentDeclaration v).1 :: (instrumentDeclarations vs).1,
     (instrumentDeclaration v).2 ++ (instrumentDeclarations vs).2).
Proof.
  cbn [instrumentDeclarations]. rewrite !bind_eq. simpl.
  by rewrite app_nil_r.
Qed.

Lemma no_subroutine_calls (l : list Statement) :
  filter (fun c => Setup_kind c = CoverageTypeSubroutine)
    (instrumentStatements l).2 = [].
Proof.
  apply length_zero_iff_nil.
  pose proof (countKind_statements CoverageTypeSubroutine l) as Hz.
  unfold countKind in Hz. rewrite Hz.
  - by apply list_sum_zero.
  - apply Forall_forall. intros s _. apply countKind_statement_and_if.
Qed.

(** X8: [instrument] touches the subroutine declarations only: the
    program keeps its declarations in order, a declaration that is not a
    subroutine is unchanged, and a subroutine keeps its meta and name
    while its body becomes the subroutine marker followed by its
    instrumented statements.  The subroutine registrations made are one
    per subroutine declaration, in source order. *)
Theorem instrument_subroutines_only (vcl : VCL) :
  VCL_Statements (instrument vcl).1 =
    map
      (fun v =>
         match v with
         | Subroutine sub =>
             Subroutine
               (mkSub (Sub_Meta sub) (Sub_Name sub)
                  (Block_setStatements (Sub_Block sub)
                     (marker CoverageTypeSubroutine (SubroutineNode sub) [] ::
                      (instrumentStatements
                         (Block_Statements (Sub_Block sub))).1)))
         | OtherDeclaration _ => v
         end)
      (VCL_Statements vcl) /\
  filter (fun c => Setup_kind c = CoverageTypeSubroutine) (instrument vcl).2 =
    map
      (fun sub =>
         SetupSubroutine
           (markerId CoverageTypeSubroutine (SubroutineNode sub) [])
           (SubroutineNode sub))
      (subroutines vcl).
Proof.
  unfold instrument, subroutines. rewrite bind_eq. cbn [fst snd ret].
  rewrite app_nil_r. cbn [VCL_Statements].
  induction (VCL_Statements vcl) as [|v vs [IH1 IH2]]; [done |].
  rewrite instrumentDeclarations_cons. cbn [fst snd map flat_map].
  rewrite IH1, filter_app, IH2.
  destruct v as [sub|m]; cbn [instrumentDeclaration].
  - rewrite bind_eq, instrumentSubroutine_eq. cbn [fst snd ret].
    split; [reflexivity |].
    rewrite app_nil_r, filter_cons. cbn [Setup_kind].
    case_decide; [|done]. by rewrite no_subroutine_calls.
  - split; reflexivity.
Qed.

End program.

(** ** Markers under the pass *)

Section markers.
Context {stringer : CoverageTypeStringer} {null : NullToken}.

(** X13: the pass never marks its own markers: a statement returned by
    [createMarker] is a function-call statement on a string literal, so
    [instrumentStatement] puts nothing before it, leaves it unchanged and
    registers nothing for it. *)
Theorem marker_not_instrumented (t : CoverageType) (node : Node)
    (suffix : list string) :
  instrumentStatement (createMarker t node suffix).1 =
    (([], (createMarker t node suffix).1), []).
Proof. by rewrite createMarker_fst. Qed.

End markers.

#[local] Existing Instance exampleStringer.
#[local] Existing Instance exampleNull.

(** Two nodes at the same line and column share their identifiers. *)
Lemma createMarker_identifier_injective_witness :
  map Setup_id
    (createMarker CoverageTypeBranch (StatementNode (IfStmt sampleChain))
       ["1"]).2 =
    map Setup_id
      (createMarker CoverageTypeBranch
         (StatementNode (PlainStatement EsiStatement (at_ 10 3))) ["1"]).2 /\
  (CoverageTypeBranch = CoverageTypeBranch /\
   Line (Token (GetMeta (StatementNode (IfStmt sampleChain)))) =
     Line
       (Token
          (GetMeta (StatementNode (PlainStatement EsiStatement (at_ 10 3))))) /\
   Position (Token (GetMeta (StatementNode (IfStmt sampleChain)))) =
     Position
       (Token
          (GetMeta (StatementNode (PlainStatement EsiStatement (at_ 10 3))))) /\
   (["1"] = [] <-> ["1"] = []) /\
   String.concat "_" ["1"] = String.concat "_" ["1"]).
Proof.
  split; [reflexivity |].
  exact (createMarker_identifier_injective CoverageTypeBranch
           CoverageTypeBranch (StatementNode (IfStmt sampleChain))
           (StatementNode (PlainStatement EsiStatement (at_ 10 3)))
           ["1"] ["1"] eq_refl).
Defined.

End coverage_spec.

(** * The conditional chain *)

Module chain_spec.

Import token ast shared interpreter instrument_spec coverage_spec.

Section chain.
Context {stringer : CoverageTypeStringer} {null : NullToken}.

(** C1, as amended: for a conditional statement with one if clause, two
    else-if clauses and a trailing else, [instrumentIfStatement] creates
    six branch markers for the chain.  Four are keyed on the statement,
    with suffixes 1 to 4: marker 1 heads the consequence of the if clause,
    markers 2 and 3 head the else blocks generated around the first and
    the second else-if clause, and marker 4 heads the consequence of the
    trailing else.  Two more are keyed on the else-if clauses, one each,
    with suffix 1: each clause, its keyword set to [if], is rewritten as a
    conditional statement of its own, and its marker heads its
    consequence.  The registrations are made in the order statement 1,
    first clause 1, statement 2, second clause 1, statement 3,
    statement 4, the registrations of the statements of a clause
    following the marker that heads it.  The clauses are nodes other than
    the statement, no registration made for the statements of the clauses
    names the statement, and the branch registrations number six plus
    those due to the statements of the four clauses. *)
Theorem instrumentIfStatement_six_branches (kw : string) (m : Meta)
    (cond : Expression) (mb : Meta) (body : list Statement)
    (kw1 : string) (m1 : Meta) (cond1 : Expression) (mb1 : Meta)
    (body1 : list Statement)
    (kw2 : string) (m2 : Meta) (cond2 : Expression) (mb2 : Meta)
    (body2 : list Statement)
    (me meb : Meta) (ebody : list Statement) :
  let stmt :=
    mkIf kw m cond (mkBlock mb body)
      [mkIf kw1 m1 cond1 (mkBlock mb1 body1) [] None;
       mkIf kw2 m2 cond2 (mkBlock mb2 body2) [] None]
      (Some (mkElse me (mkBlock meb ebody))) in
  let node := StatementNode (IfStmt stmt) in
  let node1 :=
    StatementNode (IfStmt (mkIf "if" m1 cond1 (mkBlock mb1 body1) [] None)) in
  let node2 :=
    StatementNode (IfStmt (mkIf "if" m2 cond2 (mkBlock mb2 body2) [] None)) in
  let b := instrumentStatements body in
  let b1 := instrumentStatements body1 in
  let b2 := instrumentStatements body2 in
  let b4 := instrumentStatements ebody in
  let calls :=
    SetupBranch (markerId CoverageTypeBranch node ["1"]) node :: b.2 ++
    (SetupBranch (markerId CoverageTypeBranch node1 ["1"]) node1 :: b1.2) ++
    SetupBranch (markerId CoverageTypeBranch node ["2"]) node ::
    (SetupBranch (markerId CoverageTypeBranch node2 ["1"]) node2 :: b2.2) ++
    SetupBranch (markerId CoverageTypeBranch node ["3"]) node ::
    SetupBranch (markerId CoverageTypeBranch node ["4"]) node :: b4.2 in
  instrumentIfStatement stmt =
    (mkIf kw m cond
       (mkBlock mb (marker CoverageTypeBranch node ["1"] :: b.1))
       []
       (Some
          (mkElse fake
             (mkBlock fake
                [marker CoverageTypeBranch node ["2"];
                 IfStmt
                   (mkIf "if" m1 cond1
                      (mkBlock mb1
                         (marker CoverageTypeBranch node1 ["1"] :: b1.1))
                      []
                      (Some
                         (mkElse fake
                            (mkBlock fake
                               [marker CoverageTypeBranch node ["3"];
                                IfStmt
                                  (mkIf "if" m2 cond2
                                     (mkBlock mb2
                                        (marker CoverageTypeBranch node2
                                           ["1"] ::
                                         b2.1))
                                     []
                                     (Some
                                        (mkElse me
                                           (mkBlock meb
                                              (marker CoverageTypeBranch
                                                 node ["4"] ::
                                               b4.1)))))]))))]))),
     calls) /\
  node1 ≠ node /\
  node2 ≠ node /\
  Forall (fun c => Setup_node c ≠ node) (b.2 ++ b1.2 ++ b2.2 ++ b4.2) /\
  countKind CoverageTypeBranch calls =
    (6 + list_sum (map branchPoints body) +
     list_sum (map branchPoints body1) + list_sum (map branchPoints body2) +
     list_sum (map branchPoints ebody))%nat.
Proof.
  intros stmt node node1 node2 b b1 b2 b4 calls.
  assert (Hsize : Node_size node =
            S (Statements_size body +
               (S (Statements_size body1 + 0 + 0) +
                (S (Statements_size body2 + 0 + 0) + 0)) +
               Statements_size ebody)).
  { unfold node, stmt. cbn [Node_size Statement_size].
    rewrite !If_size_eq. cbn [map]. rewrite !list_sum_cons, !If_size_eq.
    reflexivity. }
  assert (Hsize1 : Node_size node1 = S (Statements_size body1 + 0 + 0)).
  { unfold node1. cbn [Node_size Statement_size]. by rewrite If_size_eq. }
  assert (Hsize2 : Node_size node2 = S (Statements_size body2 + 0 + 0)).
  { unfold node2. cbn [Node_size Statement_size]. by rewrite If_size_eq. }
  split; [| split; [| split; [| split]]].
  - unfold instrumentIfStatement, stmt.
    rewrite instrumentIfStatementKw_eq. cbv zeta. cbn [default].
    rewrite !eachAnother_cons, eachAnother_nil, instrumentAlternative_some.
    rewrite !createMarker_eq, !instrumentIfStatementKw_eq.
    cbv zeta. cbn [default]. rewrite !eachAnother_nil.
    cbn [instrumentAlternative ret fst snd attach If_setAlternative].
    unfold calls. by rewrite !app_nil_r.
  - intros Heq. apply (f_equal Node_size) in Heq.
    rewrite Hsize1, Hsize in Heq. lia.
  - intros Heq. apply (f_equal Node_size) in Heq.
    rewrite Hsize2, Hsize in Heq. lia.
  - eapply within_ne with (n := (Node_size node - 1)%nat);
      [rewrite Hsize; lia |].
    rewrite Hsize.
    repeat apply within_app;
      (eapply within_mono; [| apply within_instrumentStatements]); lia.
  - assert (Hb : forall l,
              countKind CoverageTypeBranch (instrumentStatements l).2 =
                list_sum (map branchPoints l)).
    { intros l.
      exact (countKind_statements CoverageTypeBranch l
               (proj2 (Forall_forall _ l)
                  (fun s _ =>
                     proj1 (countKind_statement_and_if CoverageTypeBranch)
                       s))). }
    unfold calls, b, b1, b2, b4.
    repeat first
      [rewrite countKind_cons | rewrite countKind_app | rewrite Hb].
    cbn [Setup_kind]. repeat case_decide; try done. lia.
Qed.

End chain.

#[local] Existing Instance exampleStringer.
#[local] Existing Instance exampleNull.

(** C1, as stated, fails on
    [if (a) { } else if (b) { } else if (c) { } else { }]: the rewrite
    registers six branch markers for the chain, not four.  Next to
    [branch_10_3_1] to [branch_10_3_4] of the statement on line 10 it
    registers [branch_12_3_1] and [branch_14_3_1] for the else-if clauses
    on lines 12 and 14, so the markers are not numbered 1 through 4
    either. *)
Lemma sampleChain_six_branch_markers :
  ~ (countKind CoverageTypeBranch (instrumentIfStatement sampleChain).2 =
       4%nat) /\
  ~ (map Setup_id
       (filter (fun c => Setup_kind c = CoverageTypeBranch)
          (instrumentIfStatement sampleChain).2) =
       ["branch_10_3_1"; "branch_10_3_2"; "branch_10_3_3";
        "branch_10_3_4"]).
Proof.
  split; intros Hclaim; vm_compute in Hclaim; discriminate Hclaim.
Qed.

End chain_spec.

(** * Properties of the exceptions *)

Module exception_spec.

Import exception.

Lemma append_empty_r (s : string) : s +:+ "" = s.
Proof.
  induction s as [|a s IH]; [reflexivity |].
  change (String.String a (s +:+ "") = String.String a s). by rewrite IH.
Qed.

(** X9: the text of an exception always begins with its type in square
    brackets, a space and its message, whether or not it has a token and
    whatever its type is. *)
Theorem Error_begins_with_type_and_message (e : Exception) :
  exists rest, Error e = "[" +:+ Type_of e +:+ "] " +:+ Message e +:+ rest.
Proof.
  destruct e as [ty [t|] msg]; unfold Error;
    cbn [exception.Token Type_of Message]; case_decide.
  - eexists. rewrite !instrument_spec.append_assoc. reflexivity.
  - eexists. reflexivity.
  - eexists. rewrite !instrument_spec.append_assoc. reflexivity.
  - exists "". by rewrite append_empty_r.
Qed.

Section constructors.
Context `{GoFmt}.

(** X10: an exception built by [System] prints without a position and
    ends with the report note; one built by [Runtime] or
    [MaxCallStackExceeded] never gets the note, and prints the position of
    its token, with the file when the token names one, exactly when a
    token is given. *)
Theorem Error_of_constructors (format : string) (args : list Any)
    (t : token.Token) (stacks : list ast.SubroutineDeclaration) :
  Error (System format args) =
    "[SystemException] " +:+ fmt_Sprintf format args +:+ reportNote /\
  Error (Runtime None format args) =
    "[RuntimeException] " +:+ fmt_Sprintf format args /\
  Error (Runtime (Some t) format args) =
    "[RuntimeException] " +:+ fmt_Sprintf format args +:+ location t /\
  Error (MaxCallStackExceeded None stacks) =
    "[RuntimeException] max call stack exceeded. Call stack:" +:+ newline +:+
    String.concat newline (map frame stacks) /\
  Error (MaxCallStackExceeded (Some t) stacks) =
    "[RuntimeException] max call stack exceeded. Call stack:" +:+ newline +:+
    String.concat newline (map frame stacks) +:+ location t.
Proof.
  unfold Error, System, Runtime, MaxCallStackExceeded, reportNote, location.
  cbn [exception.Token Type_of Message].
  repeat split; case_decide; try done;
    rewrite ?instrument_spec.append_assoc; reflexivity.
Qed.

End constructors.

End exception_spec.

(** * Further properties of [testing.fixed_time] *)

Module fixed_time_calls.

Import value context errors function fixed_time_spec.

Section calls.
Context `{ValueImports}.

Lemma Testing_fixed_time_context (ctx : Context) (args : list Value) :
  (Testing_fixed_time ctx args).1 =
    match acceptedClock args with
    | Some t => mkContext (Some t)
    | None => ctx
    end.
Proof.
  destruct (decide (length args = 1%nat)) as [Hlen|Hlen].
  - destruct args as [|v [|v' args]]; try discriminate Hlen.
    unfold Testing_fixed_time. rewrite Validate_one.
    cbn [acceptedClock].
    destruct v as [n|t|fixed|name]; cbn [fixedClock]; try reflexivity.
    change expectedTimeFormat with "2006-01-02 15:04:05".
    by destruct (time_Parse "2006-01-02 15:04:05" fixed).
  - unfold Testing_fixed_time.
    destruct (Validate_other args Hlen) as [err ->].
    by destruct args as [|v [|v' args]].
Qed.

(** X11: the value returned is [nil] exactly when the number of arguments
    is wrong, and then the error carries the text of
    [errors.ArgumentNotEnough]; with one argument the value is [Null],
    also when the call fails on the type or the format of the
    argument. *)
Theorem Testing_fixed_time_value (ctx : Context) (args : list Value) :
  (length args ≠ 1%nat /\
   Testing_fixed_time ctx args =
     (ctx,
      (None,
       Some
         (NewTestingError "%s"
            [StringArg
               (ArgumentNotEnough_Error Testing_fixed_time_Name 1 args)])))) \/
  (length args = 1%nat /\
   (Testing_fixed_time ctx args).2.1 = Some value_Null).
Proof.
  destruct (decide (length args = 1%nat)) as [Hlen|Hlen].
  - right. split; [done |].
    destruct args as [|v [|v' args]]; try discriminate Hlen.
    unfold Testing_fixed_time. rewrite Validate_one.
    destruct v as [n|t|fixed|name]; try reflexivity.
    by destruct (time_Parse expectedTimeFormat fixed).
  - left. split; [done |]. unfold Testing_fixed_time.
    unfold Testing_fixed_time_Validate. by case_decide.
Qed.

(** X12: over a sequence of calls the clock in force is the one of the
    last call that was accepted; refused calls change nothing, and when
    no call is accepted the clock is the one the context started with. *)
Theorem afterCalls_last_accepted (ctx : Context)
    (calls : list (list Value)) :
  FixedTime (afterCalls ctx calls) =
    match last (omap acceptedClock calls) with
    | Some t => Some t
    | None => FixedTime ctx
    end.
Proof.
  unfold afterCalls. revert ctx.
  induction calls as [|args calls IH]; intros ctx; [reflexivity |].
  cbn [foldl]. rewrite IH, Testing_fixed_time_context.
  change (omap acceptedClock (args :: calls))
    with (match acceptedClock args with
          | Some t => t :: omap acceptedClock calls
          | None => omap acceptedClock calls
          end).
  destruct (acceptedClock args) as [t|]; [|reflexivity].
  rewrite last_cons. by destruct (last (omap acceptedClock calls)).
Qed.

End calls.

End fixed_time_calls.
